(** * p5.js Rainbow Shaders: pillar animation, cube mesh and fragment shading

    A shallow embedding of [sketch.js] and [fragment.frag].

    Numbers.  JavaScript numbers and GLSL floats are modelled as real numbers
    ([R]); [sin], [cos], [sqrt], [atan] and [acos] are the functions of the
    Standard Library.  Rounding, infinities and NaN are outside the model.

    Arrays of three numbers ([[x, y, z]] in JavaScript, [vec3] in GLSL) are
    the record [vec3]; the six-number vertex array of [makeFace] is the record
    [VertexRecord]; the pillar object literal of [initPillars] is the record
    [Pillar].  Mutation of a pillar in place is a function from the old record
    to the new one, and the [for (let p of pillars)] loop is [map]. *)

From Stdlib Require Import Reals Lra Psatz List Arith Lia.
Import ListNotations.
Open Scope R_scope.

(* ================================================================= *)
(** * Part I: definitions *)
(* ================================================================= *)

(** Three-component arrays / vectors. *)
Record vec3 : Type := Vec3 { vx : R; vy : R; vz : R }.

Definition vzero : vec3 := Vec3 0 0 0.

(** [inUnit v]: every component of [v] lies in [0, 1], as a colour produced by
    [rgbToFloat] does. *)
Definition inUnit (v : vec3) : Prop :=
  0 <= vx v <= 1 /\ 0 <= vy v <= 1 /\ 0 <= vz v <= 1.

Module Sketch.

(** ** Globals of sketch.js (lines 8-11) *)

Definition rows : nat := 30.
Definition cols : nat := 30.
Definition spacing : R := 1.
Definition maxHeight : R := 25.0.

(** ** Pillar objects (sketch.js, lines 121-129) *)

Record Pillar : Type := mkPillar {
  x : R;
  z : R;
  startHeightFactor : R;
  targetHeightFactor : R;
  currentHeightFactor : R;
  elapsedTime : R;
  animationDuration : R
}.

(** p5's [random(min, max)], as a function of the raw uniform draw
    [r] in [0, 1): the bounds are put in order and the draw is scaled into
    the interval. *)
Definition random (r lo hi : R) : R :=
  if Rgt_dec lo hi then r * (lo - hi) + hi else r * (hi - lo) + lo.

(** [initPillars]: the body of the inner loop for one grid cell.  The three
    calls to [random] of the cell number [k = row * cols + col] consume the
    draws [3k], [3k+1] and [3k+2] of the generator [rnd]. *)
Definition initPillar (nrows ncols : nat) (space maxH : R) (rnd : nat -> R)
    (row col : nat) : Pillar :=
  let k := (row * ncols + col)%nat in
  let x := INR col * space - (INR ncols * space) / 2.0 in
  let z := INR row * space - (INR nrows * space) / 2.0 in
  let startH := - random (rnd (3 * k)%nat) 1.0 maxH in
  let targetH := - random (rnd (3 * k + 1)%nat) 1.0 maxH in
  let animationDuration := random (rnd (3 * k + 2)%nat) 0.1 0.33 in
  mkPillar x z startH targetH startH 0.0 animationDuration.

(** [initPillars] (lines 106-132): rows outermost, columns innermost, each
    pillar pushed at the end of the array. *)
Definition initPillars (nrows ncols : nat) (space maxH : R) (rnd : nat -> R)
    : list Pillar :=
  flat_map
    (fun row => map (initPillar nrows ncols space maxH rnd row) (seq 0 ncols))
    (seq 0 nrows).

(** ** Easing (lines 216-219) *)

Definition easeInOutQuad (t : R) : R :=
  if Rlt_dec t 0.5 then 2.0 * t * t else -1.0 + (4.0 - 2.0 * t) * t.

(** ** updatePillars (lines 166-198) *)

(** The three layered waves and their average (lines 179-186). *)
Definition wave1 (p : Pillar) (currentTime : R) : R :=
  sin (x p * 0.5 + z p * 0.5 + currentTime * 3.0) * 0.5 + 0.5.

Definition wave2 (p : Pillar) (currentTime freqMultiplier : R) : R :=
  sin (x p * 1.5 * freqMultiplier - z p * 1.2 * freqMultiplier
       + currentTime * 8.0) * 0.25 + 0.5.

Definition wave3 (p : Pillar) (currentTime ampMultiplier : R) : R :=
  cos (z p * 0.7 + currentTime * 5.0) * (0.3 * ampMultiplier) + 0.5.

Definition combined (p : Pillar) (currentTime freqMultiplier ampMultiplier : R)
    : R :=
  (wave1 p currentTime + wave2 p currentTime freqMultiplier
   + wave3 p currentTime ampMultiplier) / 3.0.

(** The new target of line 187. *)
Definition newTarget (maxH : R) (p : Pillar)
    (currentTime freqMultiplier ampMultiplier : R) : R :=
  - combined p currentTime freqMultiplier ampMultiplier * maxH.

(** Field assignments. *)
Definition setElapsedTime (p : Pillar) (v : R) : Pillar :=
  mkPillar (x p) (z p) (startHeightFactor p) (targetHeightFactor p)
           (currentHeightFactor p) v (animationDuration p).

Definition setStartHeightFactor (p : Pillar) (v : R) : Pillar :=
  mkPillar (x p) (z p) v (targetHeightFactor p)
           (currentHeightFactor p) (elapsedTime p) (animationDuration p).

Definition setTargetHeightFactor (p : Pillar) (v : R) : Pillar :=
  mkPillar (x p) (z p) (startHeightFactor p) v
           (currentHeightFactor p) (elapsedTime p) (animationDuration p).

Definition setCurrentHeightFactor (p : Pillar) (v : R) : Pillar :=
  mkPillar (x p) (z p) (startHeightFactor p) (targetHeightFactor p)
           v (elapsedTime p) (animationDuration p).

(** The body of the [if (t >= 1.0)] block (lines 175-190), on the pillar. *)
Definition retarget (maxH currentTime freqMultiplier ampMultiplier : R)
    (p : Pillar) : Pillar :=
  let p := setStartHeightFactor p (targetHeightFactor p) in
  let p := setTargetHeightFactor p
             (newTarget maxH p currentTime freqMultiplier ampMultiplier) in
  setElapsedTime p 0.0.

(** The body of the loop of [updatePillars] for one pillar.  The pair carries
    the pillar and the local [t] out of the conditional. *)
Definition updatePillar (maxH currentTime dt freqMultiplier ampMultiplier : R)
    (p : Pillar) : Pillar :=
  let p := setElapsedTime p (elapsedTime p + dt) in
  let t := elapsedTime p / animationDuration p in
  let '(p, t) :=
    if Rge_dec t 1.0
    then (retarget maxH currentTime freqMultiplier ampMultiplier p, 0.0)
    else (p, t) in
  let easedT := easeInOutQuad t in
  setCurrentHeightFactor p
    (startHeightFactor p
     + (targetHeightFactor p - startHeightFactor p) * easedT).

(** [updatePillars]: [currentTime] is the clock reading [millis() / 1000.0]
    taken once at the start of the call. *)
Definition updatePillars (maxH currentTime dt freqMultiplier ampMultiplier : R)
    (pillars : list Pillar) : list Pillar :=
  map (updatePillar maxH currentTime dt freqMultiplier ampMultiplier) pillars.

(** One frame's inputs to [updatePillars], and a run of frames. *)
Record Frame : Type := mkFrame {
  fTime : R;
  fDt : R;
  fFreq : R;
  fAmp : R
}.

Definition stepFrame (maxH : R) (pillars : list Pillar) (f : Frame)
    : list Pillar :=
  updatePillars maxH (fTime f) (fDt f) (fFreq f) (fAmp f) pillars.

Definition runFrames (maxH : R) (frames : list Frame) (pillars : list Pillar)
    : list Pillar :=
  fold_left (stepFrame maxH) frames pillars.

(** Pillar arrays the program can hold: the array built by [initPillars] from
    draws in [0, 1), and what [updatePillars] makes of it frame after frame
    with a non-negative [deltaTime]. *)
Inductive reachable (maxH : R) : list Pillar -> Prop :=
| reach_init (nrows ncols : nat) (space : R) (rnd : nat -> R) :
    (forall n, 0 <= rnd n < 1) ->
    reachable maxH (initPillars nrows ncols space maxH rnd)
| reach_step (pillars : list Pillar) (f : Frame) :
    reachable maxH pillars ->
    0 <= fDt f ->
    reachable maxH (stepFrame maxH pillars f).

(** The state [initPillars] leaves a pillar in, as far as the heights are
    concerned. *)
Definition initState (maxH : R) (p : Pillar) : Prop :=
  - maxH <= startHeightFactor p <= 0 /\
  - maxH <= targetHeightFactor p <= 0 /\
  - maxH <= currentHeightFactor p <= 0 /\
  elapsedTime p = 0 /\
  0 < animationDuration p.

(** What the loop of [updatePillars] keeps true of a pillar: the timer stays
    inside the current transition, and the displayed height is the eased
    interpolation of start to target at the timer's fraction. *)
Definition pillarInv (p : Pillar) : Prop :=
  0 < animationDuration p /\
  0 <= elapsedTime p < animationDuration p /\
  currentHeightFactor p =
    startHeightFactor p
    + (targetHeightFactor p - startHeightFactor p)
      * easeInOutQuad (elapsedTime p / animationDuration p).

(** Sample data: the first grid cell of the sketch with every draw at 1/2,
    the 2 x 2 grid of the end-to-end scenario, and its ten frames. *)
Definition samplePillar : Pillar :=
  initPillar rows cols spacing maxHeight (fun _ => 0.5) 0 0.

Definition sampleGrid : list Pillar :=
  initPillars 2 2 spacing 10 (fun _ => 0.5).

Definition sampleFrames : list Frame :=
  map (fun k => mkFrame (INR k * 0.05) 0.05 1.0 1.0) (seq 1 10).

(** The height bounds carried from frame to frame. *)
Definition heightInv (maxH : R) (p : Pillar) : Prop :=
  - maxH <= startHeightFactor p <= 0 /\
  - maxH <= targetHeightFactor p <= 0 /\
  - maxH <= currentHeightFactor p <= 0 /\
  0 <= elapsedTime p /\
  0 < animationDuration p.

(** Frames with the inputs [draw] computes: a non-negative time step and the
    pointer-derived multipliers in their ranges. *)
Definition frameOk (f : Frame) : Prop :=
  0 <= fDt f /\ 0.1 <= fFreq f <= 3.0 /\ 0.1 <= fAmp f <= 1.0.

(** ** Cube mesh (lines 221-299) *)

(** The six numbers of one vertex, [[x, y, z, nx, ny, nz]]. *)
Record VertexRecord : Type := mkVertex {
  px : R; py : R; pz : R;
  nx : R; ny : R; nz : R
}.

Definition position (v : VertexRecord) : vec3 := Vec3 (px v) (py v) (pz v).
Definition normalOf (v : VertexRecord) : vec3 := Vec3 (nx v) (ny v) (nz v).

(** The cross product of the two edges [p2 - p1] and [p3 - p1]
    (lines 223-228 of [computeNormal]). *)
Definition edgeCross (p1 p2 p3 : vec3) : vec3 :=
  let U := Vec3 (vx p2 - vx p1) (vy p2 - vy p1) (vz p2 - vz p1) in
  let V := Vec3 (vx p3 - vx p1) (vy p3 - vy p1) (vz p3 - vz p1) in
  Vec3 (vy U * vz V - vz U * vy V)
       (vz U * vx V - vx U * vz V)
       (vx U * vy V - vy U * vx V).

(** Its length (line 230). *)
Definition edgeCrossLength (p1 p2 p3 : vec3) : R :=
  let N := edgeCross p1 p2 p3 in
  sqrt (vx N * vx N + vy N * vy N + vz N * vz N).

Definition computeNormal (p1 p2 p3 : vec3) : vec3 :=
  let U := Vec3 (vx p2 - vx p1) (vy p2 - vy p1) (vz p2 - vz p1) in
  let V := Vec3 (vx p3 - vx p1) (vy p3 - vy p1) (vz p3 - vz p1) in
  let Nx := vy U * vz V - vz U * vy V in
  let Ny := vz U * vx V - vx U * vz V in
  let Nz := vx U * vy V - vy U * vx V in
  let len := sqrt (Nx * Nx + Ny * Ny + Nz * Nz) in
  if Rgt_dec len 0.0
  then Vec3 (Nx / len) (Ny / len) (Nz / len)
  else Vec3 Nx Ny Nz.

(** The eight corners before the transformation (lines 246-255). *)
Definition cubeCorners (halfSize heightFactor : R) : list vec3 :=
  [ Vec3 (- halfSize) (- halfSize) (- halfSize);
    Vec3 halfSize (- halfSize) (- halfSize);
    Vec3 halfSize (halfSize * heightFactor) (- halfSize);
    Vec3 (- halfSize) (halfSize * heightFactor) (- halfSize);
    Vec3 (- halfSize) (- halfSize) halfSize;
    Vec3 halfSize (- halfSize) halfSize;
    Vec3 halfSize (halfSize * heightFactor) halfSize;
    Vec3 (- halfSize) (halfSize * heightFactor) halfSize ].

(** The function mapped over the corners (lines 260-264): rotation about the
    Y axis with the given cosine and sine, then translation. *)
Definition rotateTranslate (cosA sinA xOffset yOffset zOffset : R) (c : vec3)
    : vec3 :=
  let X := vx c * cosA - vz c * sinA in
  let Z := vx c * sinA + vz c * cosA in
  Vec3 (X + xOffset) (vy c + yOffset) (Z + zOffset).

(** The face table (lines 267-274). *)
Definition faces : list (nat * nat * nat * nat) :=
  [ (0, 1, 2, 3);
    (4, 5, 6, 7);
    (0, 1, 5, 4);
    (2, 3, 7, 6);
    (0, 3, 7, 4);
    (1, 2, 6, 5) ]%nat.

(** [corners[v]]; the face table only holds indices 0 to 7. *)
Definition corner (corners : list vec3) (v : nat) : vec3 :=
  nth v corners vzero.

Definition vertexOf (c n : vec3) : VertexRecord :=
  mkVertex (vx c) (vy c) (vz c) (vx n) (vy n) (vz n).

(** [makeFace] (lines 287-299). *)
Definition makeFace (corners : list vec3) (v1 v2 v3 v4 : nat) (n : vec3)
    : list VertexRecord :=
  [ vertexOf (corner corners v1) n;
    vertexOf (corner corners v2) n;
    vertexOf (corner corners v3) n;
    vertexOf (corner corners v1) n;
    vertexOf (corner corners v3) n;
    vertexOf (corner corners v4) n ].

(** [createCube] (lines 240-285). *)
Definition createCube (xOffset yOffset zOffset heightFactor angle : R)
    : list VertexRecord :=
  let size := 1.0 in
  let halfSize := size / 2 in
  let corners := cubeCorners halfSize heightFactor in
  let cosA := cos angle in
  let sinA := sin angle in
  let corners :=
    map (rotateTranslate cosA sinA xOffset yOffset zOffset) corners in
  flat_map
    (fun face : nat * nat * nat * nat =>
       let '(v1, v2, v3, v4) := face in
       let n := computeNormal (corner corners v1) (corner corners v2)
                              (corner corners v3) in
       makeFace corners v1 v2 v3 v4 n)
    faces.

(** The normal each face carries: the normal of the first of its six
    vertex records. *)
Fixpoint faceNormals (nfaces : nat) (verts : list VertexRecord) : list vec3 :=
  match nfaces with
  | O => []
  | S k => normalOf (hd (mkVertex 0 0 0 0 0 0) verts)
           :: faceNormals k (skipn 6 verts)
  end.

(** ** Shader uniforms set by [setShaderUniforms] (lines 134-164) *)

Definition rgbToFloat (r g b : R) : vec3 := Vec3 (r / 255) (g / 255) (b / 255).

Definition palette : list vec3 :=
  [ rgbToFloat 255 0 0;
    rgbToFloat 255 242 0;
    rgbToFloat 0 255 8;
    rgbToFloat 0 255 238;
    rgbToFloat 111 0 255 ].

(** The uniform array [u_color] as the shader sees it after the upload: the
    five palette entries, and zero in the slots the upload does not reach. *)
Definition u_color (i : nat) : vec3 := nth i palette vzero.

Definition uRoughness : R := 0.1.
Definition uMetalness : R := 0.7.

(** ** Scene centre and camera (lines 18, 78-104) *)

Definition radius : R := 3000.

(** [computeSceneCenter]: the three globals it assigns, as a vector. *)
Definition computeSceneCenter (nrows ncols : nat) (space : R) : vec3 :=
  let centerX := (INR ncols - 1) * space - (INR ncols * space) / 2.0 in
  let centerZ := (INR nrows - 1) * space - (INR nrows * space) / 2.0 in
  let centerY := 0 in
  Vec3 centerX centerY centerZ.

(** p5's [radians]: degrees times PI / 180. *)
Definition radians (degrees : R) : R := degrees * PI / 180.

(** The camera position [setupCamera] computes (lines 88-94); [millis] is
    the clock reading passed to [sin]. *)
Definition cameraPosition (center : vec3) (rad millis : R) : vec3 :=
  let elevationAngle := radians (-45) in
  let azimuthAngle := radians (sin millis * 50) in
  let camX := vx center + rad * cos elevationAngle * cos azimuthAngle in
  let camY := vy center + rad * sin elevationAngle in
  let camZ := vz center + rad * cos elevationAngle * sin azimuthAngle in
  Vec3 camX camY camZ.

(** ** The frame loop (lines 42-76, 200-209) *)

(** p5's [map(value, start1, stop1, start2, stop2)], without clamping. *)
Definition mapRange (value start1 stop1 start2 stop2 : R) : R :=
  (value - start1) / (stop1 - start1) * (stop2 - start2) + start2.

(** What [draw] reads from the environment: the frame time in milliseconds,
    the pointer position, the canvas size, and the two readings of the
    clock, one inside [updatePillars] and one at line 64. *)
Record DrawInput : Type := mkDrawInput {
  deltaTime : R;
  mouseX : R;
  mouseY : R;
  width : R;
  height : R;
  millisUpdate : R;
  millisDraw : R
}.

(** The arguments [draw] passes to [updatePillars] (lines 52-61). *)
Definition drawFrame (inp : DrawInput) : Frame :=
  let dt := deltaTime inp / 1000.0 in
  let freqMultiplier := mapRange (mouseX inp) 0 (width inp) 0.1 3.0 in
  let ampMultiplier := mapRange (mouseY inp) 0 (height inp) 0.1 1.0 in
  mkFrame (millisUpdate inp / 1000.0) dt freqMultiplier ampMultiplier.

(** The rotation angle of one pillar (line 67). *)
Definition pillarAngle (p : Pillar) (currentTime mx : R) : R :=
  (x p + z p) * 0.1 + currentTime * 2.0 + mx * 0.01.

(** The loop of lines 65-72: the cubes of all pillars, appended in order. *)
Definition pillarVertices (pillars : list Pillar) (currentTime mx : R)
    : list VertexRecord :=
  flat_map
    (fun p => createCube (x p) 0 (z p) (currentHeightFactor p)
                         (pillarAngle p currentTime mx))
    pillars.

(** The calls [drawPillars] makes on the renderer. *)
Inductive DrawCommand : Type :=
| BeginShapeTriangles
| Normal (n0 n1 n2 : R)
| Vertex (v0 v1 v2 : R)
| EndShape.

Definition drawPillars (allVertices : list VertexRecord) : list DrawCommand :=
  BeginShapeTriangles
  :: flat_map (fun v => [Normal (nx v) (ny v) (nz v);
                         Vertex (px v) (py v) (pz v)]) allVertices
  ++ [EndShape].

(** [draw], from the update of the pillars on: the new pillar array and the
    calls [drawPillars] makes.  The calls of lines 43-49 ([background],
    [shader], [setShaderUniforms], [orbitControl], [scale]) are not
    modelled. *)
Definition draw (maxH : R) (pillars : list Pillar) (inp : DrawInput)
    : list Pillar * list DrawCommand :=
  let pillars := stepFrame maxH pillars (drawFrame inp) in
  let currentTime := millisDraw inp / 1000.0 in
  let allVertices := pillarVertices pillars currentTime (mouseX inp) in
  (pillars, drawPillars allVertices).

Definition isVertex (c : DrawCommand) : bool :=
  match c with Vertex _ _ _ => true | _ => false end.

(** The y coordinate of a vertex call lies in [lo, hi]; other calls are not
    constrained. *)
Definition vertexHeightWithin (lo hi : R) (c : DrawCommand) : Prop :=
  match c with
  | Vertex _ y _ => lo <= y <= hi
  | _ => True
  end.

(** [flattenColorArray] (lines 301-308). *)
Definition flattenColorArray (arr : list vec3) : list R :=
  flat_map (fun c => [vx c; vy c; vz c]) arr.

(** Rotation about the Y axis alone: the corner map of [createCube] with no
    offset. *)
Definition rotateY (angle : R) (c : vec3) : vec3 :=
  rotateTranslate (cos angle) (sin angle) 0 0 0 c.

(** A pointer inside the canvas and a clock that does not run backwards. *)
Definition drawInputOk (inp : DrawInput) : Prop :=
  0 <= deltaTime inp /\
  0 < width inp /\ 0 <= mouseX inp <= width inp /\
  0 < height inp /\ 0 <= mouseY inp <= height inp.

Definition sampleInput : DrawInput :=
  mkDrawInput 16 400 300 800 600 1000 1001.

(** The light directions [setShaderUniforms] uploads (lines 145-146). *)
Definition uLightDir : vec3 := Vec3 0.3 0.5 0.3.
Definition uSunLightDir : vec3 :=
  Vec3 (26.7555 / 100) (89.4641 / 100) (-30.95 / 100).

Definition isNormal (c : DrawCommand) : bool :=
  match c with Normal _ _ _ => true | _ => false end.

End Sketch.

Module Fragment.

(** ** GLSL built-in functions used by fragment.frag *)

Record vec2 : Type := Vec2 { ux : R; uy : R }.

Definition clamp (x minVal maxVal : R) : R := Rmin (Rmax x minVal) maxVal.

Definition mix (x y a : R) : R := x * (1 - a) + y * a.

Definition mix3 (x y : vec3) (a : R) : vec3 :=
  Vec3 (mix (vx x) (vx y) a) (mix (vy x) (vy y) a) (mix (vz x) (vz y) a).

Definition smoothstep (edge0 edge1 x : R) : R :=
  let t := clamp ((x - edge0) / (edge1 - edge0)) 0.0 1.0 in
  t * t * (3.0 - 2.0 * t).

Definition dot (a b : vec3) : R := vx a * vx b + vy a * vy b + vz a * vz b.

Definition vadd (a b : vec3) : vec3 :=
  Vec3 (vx a + vx b) (vy a + vy b) (vz a + vz b).

Definition vsub (a b : vec3) : vec3 :=
  Vec3 (vx a - vx b) (vy a - vy b) (vz a - vz b).

Definition length3 (v : vec3) : R := sqrt (dot v v).

(** [normalize(v)] is [v / length(v)], here with the total division of the
    real numbers: at a vector of length zero, where GLSL divides by zero,
    this definition gives the zero vector.  [Checked.normalize] below keeps
    track of that division. *)
Definition normalize (v : vec3) : vec3 :=
  Vec3 (vx v / length3 v) (vy v / length3 v) (vz v / length3 v).

(** Two-argument [atan(y, x)]: the angle of the point [(x, y)], in
    (-PI, PI]; the value at the origin, which GLSL leaves undefined, is taken
    to be 0. *)
Definition atan2 (y x : R) : R :=
  if Rlt_dec 0 x then atan (y / x)
  else if Rlt_dec x 0 then
    if Rle_dec 0 y then atan (y / x) + PI else atan (y / x) - PI
  else if Rlt_dec 0 y then PI / 2
  else if Rlt_dec y 0 then - PI / 2
  else 0.

(** ** directionToUV (lines 57-63)

    The macro [PI] (line 5) is a 19-digit decimal for the circle constant; it
    is the constant [PI] of the real numbers here, the same one that bounds
    the built-in [atan] and [acos]. *)
Definition directionToUV (dir : vec3) : vec2 :=
  let theta := acos (clamp (vy dir) (-1.0) 1.0) in
  let phi := atan2 (vx dir) (vz dir) + PI in
  let u := phi / (2.0 * PI) in
  let v := theta / PI in
  Vec2 u v.

(** ** Palette blend (lines 87-102 of [main])

    [u_color] is the uniform array, read at the indices 0 to 9; the array is
    declared with 9 entries, so the value read at index 9 is whatever the
    function gives there. *)
Definition paletteStep (u_color : nat -> vec3) (zero color_gap x : R)
    (baseColor : vec3) (i : nat) : vec3 :=
  mix3 baseColor (u_color (i + 1)%nat)
       (smoothstep (zero + color_gap * INR i)
                   (zero + color_gap * INR (i + 1)) x).

Definition paletteBlend (u_color : nat -> vec3) (panning_vUv_x : R) : vec3 :=
  let zero := 0.0 in
  let color_num := 5.0 in
  let color_gap := 1.0 / color_num in
  let baseColor := u_color 0%nat in
  let baseColor :=
    fold_left (paletteStep u_color zero color_gap panning_vUv_x)
              (seq 0 9) baseColor in
  mix3 baseColor (u_color 0%nat)
       (smoothstep (zero + color_gap * 4.0) (zero + color_gap * 5.0)
                   panning_vUv_x).

(** The weight of loop iteration [i], and of the wrap-around mix. *)
Definition paletteWeight (i : nat) (x : R) : R :=
  smoothstep (0.0 + 1.0 / 5.0 * INR i) (0.0 + 1.0 / 5.0 * INR (i + 1)) x.

Definition wrapWeight (x : R) : R :=
  smoothstep (0.0 + 1.0 / 5.0 * 4.0) (0.0 + 1.0 / 5.0 * 5.0) x.

(** Component-wise distance at most [eps]. *)
Definition within (eps : R) (a b : vec3) : Prop :=
  Rabs (vx a - vx b) <= eps /\
  Rabs (vy a - vy b) <= eps /\
  Rabs (vz a - vz b) <= eps.

(** ** Sun specular term (lines 116-139 of [main]) *)

Section Specular.
Variables vNormal uCamPos vWorldPosition uSunLightDir : vec3.
Variable uRoughness : R.

Definition N : vec3 := normalize vNormal.
Definition V : vec3 := normalize (vsub uCamPos vWorldPosition).
Definition S : vec3 := normalize uSunLightDir.

Definition NdotS : R := Rmax (dot N S) 0.0.
Definition alpha : R := uRoughness * uRoughness.
Definition alpha2 : R := alpha * alpha.
Definition H : vec3 := normalize (vadd V S).
Definition NdotH : R := Rmax (dot N H) 0.0.
Definition denom : R := NdotH * NdotH * (alpha2 - 1.0) + 1.0.
(** The divisor of [D] (line 122). *)
Definition D_divisor : R := PI * denom * denom.
Definition D : R := alpha2 / D_divisor.

Definition NdotV : R := Rmax (dot N V) 0.0.
Definition NdotL : R := NdotS.
(** The divisor of [specularSun] (lines 138-139). *)
Definition denominator : R := 4.0 * NdotV * NdotL + 0.001.
End Specular.

(** ** Noise (lines 27-47) *)

Definition floor (x : R) : R := IZR (Int_part x).
Definition fract (x : R) : R := x - floor x.

Definition dot2 (a b : vec2) : R := ux a * ux b + uy a * uy b.

Definition hash (p : vec2) : R :=
  fract (sin (dot2 p (Vec2 127.1 311.7)) * 43758.5453123).

Definition pseudoNoise (p : vec2) : R :=
  let i := Vec2 (floor (ux p)) (floor (uy p)) in
  let f := Vec2 (fract (ux p)) (fract (uy p)) in
  let a := hash i in
  let b := hash (Vec2 (ux i + 1.0) (uy i + 0.0)) in
  let c := hash (Vec2 (ux i + 0.0) (uy i + 1.0)) in
  let d := hash (Vec2 (ux i + 1.0) (uy i + 1.0)) in
  let u := Vec2 (ux f * ux f * (3.0 - 2.0 * ux f))
                (uy f * uy f * (3.0 - 2.0 * uy f)) in
  mix (mix a b (ux u)) (mix c d (ux u)) (uy u).

(** ** fresnelSchlick (lines 50-52)

    [pow(x, 5.0)] is the fifth power; GLSL defines it for [x >= 0], the
    case in which the shader calls it with a clamped cosine. *)
Definition fresnelSchlick (cosTheta : R) (F0 : vec3) : vec3 :=
  let p := (1.0 - cosTheta) ^ 5 in
  Vec3 (vx F0 + (1.0 - vx F0) * p)
       (vy F0 + (1.0 - vy F0) * p)
       (vz F0 + (1.0 - vz F0) * p).

(** ** Geometry term of the sun specular (lines 126-129 of [main]) *)

Section Geometry.
Variables vNormal uCamPos vWorldPosition uSunLightDir : vec3.
Variable uRoughness : R.

Definition k : R := (uRoughness + 1.0) * (uRoughness + 1.0) / 8.0.
Definition G_V_divisor : R :=
  NdotV vNormal uCamPos vWorldPosition * (1.0 - k) + k.
Definition G_L_divisor : R := NdotL vNormal uSunLightDir * (1.0 - k) + k.
Definition G_V : R := NdotV vNormal uCamPos vWorldPosition / G_V_divisor.
Definition G_L : R := NdotL vNormal uSunLightDir / G_L_divisor.
Definition G : R := G_V * G_L.
End Geometry.

(** ** Value of the sun specular term (lines 131-139 of [main]) *)

Section SunSpecular.
Variables vNormal uCamPos vWorldPosition uSunLightDir baseColor : vec3.
Variables uRoughness uMetalness : R.

Definition F0 : vec3 := mix3 (Vec3 0.04 0.04 0.04) baseColor uMetalness.
Definition F : vec3 :=
  fresnelSchlick (NdotH vNormal uCamPos vWorldPosition uSunLightDir) F0.
Definition numerator : vec3 :=
  let d := D vNormal uCamPos vWorldPosition uSunLightDir uRoughness in
  let g := G vNormal uCamPos vWorldPosition uSunLightDir uRoughness in
  Vec3 (d * vx F * g) (d * vy F * g) (d * vz F * g).
Definition specularSun : vec3 :=
  let q := denominator vNormal uCamPos vWorldPosition uSunLightDir in
  Vec3 (vx numerator / q) (vy numerator / q) (vz numerator / q).
End SunSpecular.

End Fragment.

(** * Divisions made explicit

    JavaScript and GLSL do not stop at a division by zero, and the
    definitions above use the total division of the real numbers.  To speak
    about whether a divisor is zero when the code divides, the functions
    that divide are given once more with a checked division: [None] means
    that a division with divisor 0 was executed.  The built-in
    [normalize(v)] is [v / length(v)], a division by the length. *)
Module Checked.

Definition divide (a b : R) : option R :=
  if Req_EM_T b 0 then None else Some (a / b).

Definition bind {A B : Type} (m : option A) (f : A -> option B) : option B :=
  match m with
  | Some a => f a
  | None => None
  end.

Notation "x <- m ;; f" := (bind m (fun x => f))
  (at level 61, m at next level, right associativity).

(** A vector divided by a number: three divisions by the same divisor. *)
Definition divide3 (v : vec3) (b : R) : option vec3 :=
  a0 <- divide (vx v) b ;;
  a1 <- divide (vy v) b ;;
  a2 <- divide (vz v) b ;;
  Some (Vec3 a0 a1 a2).

Definition normalize (v : vec3) : option vec3 :=
  divide3 v (Fragment.length3 v).

(** [computeNormal] of sketch.js (lines 221-238). *)
Definition computeNormal (p1 p2 p3 : vec3) : option vec3 :=
  let U := Vec3 (vx p2 - vx p1) (vy p2 - vy p1) (vz p2 - vz p1) in
  let V := Vec3 (vx p3 - vx p1) (vy p3 - vy p1) (vz p3 - vz p1) in
  let Nx := vy U * vz V - vz U * vy V in
  let Ny := vz U * vx V - vx U * vz V in
  let Nz := vx U * vy V - vy U * vx V in
  let len := sqrt (Nx * Nx + Ny * Ny + Nz * Nz) in
  if Rgt_dec len 0.0
  then divide3 (Vec3 Nx Ny Nz) len
  else Some (Vec3 Nx Ny Nz).

(** The vertex shader's [vNormal = normalize(aNormal)]. *)
Definition vertexNormal (aNormal : vec3) : option vec3 := normalize aNormal.

(** The fragment shader's [main], lines 67-73 and 116-139: the four
    normalised vectors, then the sun specular term. *)
Definition sunSpecular
    (vNormal uCamPos vWorldPosition uLightDir uSunLightDir baseColor : vec3)
    (uRoughness uMetalness : R) : option vec3 :=
  N <- normalize vNormal ;;
  V <- normalize (Fragment.vsub uCamPos vWorldPosition) ;;
  L <- normalize uLightDir ;;
  S <- normalize uSunLightDir ;;
  let NdotS := Rmax (Fragment.dot N S) 0.0 in
  let alpha := uRoughness * uRoughness in
  let alpha2 := alpha * alpha in
  H <- normalize (Fragment.vadd V S) ;;
  let NdotH := Rmax (Fragment.dot N H) 0.0 in
  let denom := NdotH * NdotH * (alpha2 - 1.0) + 1.0 in
  D <- divide alpha2 (PI * denom * denom) ;;
  let NdotV := Rmax (Fragment.dot N V) 0.0 in
  let NdotL := NdotS in
  let k := (uRoughness + 1.0) * (uRoughness + 1.0) / 8.0 in
  G_V <- divide NdotV (NdotV * (1.0 - k) + k) ;;
  G_L <- divide NdotL (NdotL * (1.0 - k) + k) ;;
  let G := G_V * G_L in
  let F0 := Fragment.mix3 (Vec3 0.04 0.04 0.04) baseColor uMetalness in
  let F := Fragment.fresnelSchlick NdotH F0 in
  let numerator := Vec3 (D * vx F * G) (D * vy F * G) (D * vz F * G) in
  let denominator := 4.0 * NdotV * NdotL + 0.001 in
  divide3 numerator denominator.

(** The directions at which every [normalize] of [main] has a non-zero
    argument. *)
Definition directionsNonzero
    (vNormal uCamPos vWorldPosition uLightDir uSunLightDir : vec3) : Prop :=
  Fragment.length3 vNormal <> 0 /\
  Fragment.length3 (Fragment.vsub uCamPos vWorldPosition) <> 0 /\
  Fragment.length3 uLightDir <> 0 /\
  Fragment.length3 uSunLightDir <> 0 /\
  Fragment.length3
    (Fragment.vadd (Fragment.V uCamPos vWorldPosition)
                   (Fragment.S uSunLightDir)) <> 0.

(** A camera placed against the sun, seen from the origin. *)
Definition againstSun : vec3 :=
  Vec3 (- (26.7555 / 100)) (- (89.4641 / 100)) (- (-30.95 / 100)).

End Checked.

(* ================================================================= *)
(** * Part II: properties *)
(* ================================================================= *)

Import Sketch.

(** ** Easing *)

Lemma easeInOutQuad_low (t : R) : t < 0.5 -> easeInOutQuad t = 2 * t * t.
Proof.
  intros Ht. unfold easeInOutQuad.
  destruct (Rlt_dec t 0.5) as [_ | Hn]; [lra | contradiction].
Qed.

Lemma easeInOutQuad_high (t : R) :
  0.5 <= t -> easeInOutQuad t = 1 - 2 * (1 - t) * (1 - t).
Proof.
  intros Ht. unfold easeInOutQuad.
  destruct (Rlt_dec t 0.5) as [Hlt | _]; lra.
Qed.

Lemma easeInOutQuad_unit (t : R) : 0 <= t <= 1 -> 0 <= easeInOutQuad t <= 1.
Proof.
  intros [H0 H1]. destruct (Rlt_dec t 0.5) as [Hlt | Hge].
  - rewrite easeInOutQuad_low by assumption. nra.
  - rewrite easeInOutQuad_high by lra. nra.
Qed.

Lemma easeInOutQuad_mono (t1 t2 : R) :
  0 <= t1 -> t1 <= t2 -> t2 <= 1 -> easeInOutQuad t1 <= easeInOutQuad t2.
Proof.
  intros H0 H12 H1.
  destruct (Rlt_dec t1 0.5) as [L1 | G1];
    destruct (Rlt_dec t2 0.5) as [L2 | G2].
  - rewrite !easeInOutQuad_low by assumption. nra.
  - rewrite easeInOutQuad_low by assumption.
    rewrite easeInOutQuad_high by lra. nra.
  - lra.
  - rewrite !easeInOutQuad_high by lra. nra.
Qed.

(** C4: easeInOutQuad maps 0 to 0, 1 to 1 and 0.5 to 0.5, and it is
    monotonically non-decreasing on the interval [0,1]. *)
Theorem easeInOutQuad_boundary_monotone :
  easeInOutQuad 0 = 0 /\ easeInOutQuad 1 = 1 /\ easeInOutQuad 0.5 = 0.5 /\
  forall t1 t2 : R,
    0 <= t1 -> t1 <= t2 -> t2 <= 1 -> easeInOutQuad t1 <= easeInOutQuad t2.
Proof.
  repeat split.
  - rewrite easeInOutQuad_low; lra.
  - rewrite easeInOutQuad_high; lra.
  - rewrite easeInOutQuad_high; lra.
  - exact easeInOutQuad_mono.
Qed.

Lemma easeInOutQuad_boundary_monotone_witness :
  0 <= 0.25 /\ 0.25 <= 0.75 /\ 0.75 <= 1 /\
  easeInOutQuad 0.25 <= easeInOutQuad 0.75.
Proof.
  split; [lra | split; [lra | split; [lra |]]].
  apply (proj2 (proj2 (proj2 easeInOutQuad_boundary_monotone)) 0.25 0.75); lra.
Defined.

(** ** Wave heights *)

Lemma wave1_range (p : Pillar) (now : R) : 0 <= wave1 p now <= 1.
Proof.
  unfold wave1.
  pose proof (SIN_bound (x p * 0.5 + z p * 0.5 + now * 3.0)) as [Hl Hu].
  lra.
Qed.

Lemma wave2_range (p : Pillar) (now freq : R) :
  0.25 <= wave2 p now freq <= 0.75.
Proof.
  unfold wave2.
  pose proof (SIN_bound (x p * 1.5 * freq - z p * 1.2 * freq + now * 8.0))
    as [Hl Hu].
  lra.
Qed.

Lemma wave3_range (p : Pillar) (now amp : R) :
  0 <= amp <= 1 -> 0.2 <= wave3 p now amp <= 0.8.
Proof.
  intros [Ha0 Ha1]. unfold wave3.
  pose proof (COS_bound (z p * 0.7 + now * 5.0)) as [Hl Hu].
  nra.
Qed.

Lemma combined_range (p : Pillar) (now freq amp : R) :
  0 <= amp <= 1 -> 0 <= combined p now freq amp <= 1.
Proof.
  intros Ha. unfold combined.
  pose proof (wave1_range p now). pose proof (wave2_range p now freq).
  pose proof (wave3_range p now amp Ha). lra.
Qed.

Lemma newTarget_range (maxH : R) (p : Pillar) (now freq amp : R) :
  0 <= maxH -> 0 <= amp <= 1 ->
  - maxH <= newTarget maxH p now freq amp <= 0.
Proof.
  intros Hm Ha. unfold newTarget.
  pose proof (combined_range p now freq amp Ha). nra.
Qed.

(** C2: for every pillar position, time, freqMultiplier in [0.1, 3.0] and
    ampMultiplier in [0.1, 1.0], the average of the three waves lies in
    [0, 1], and the new target height factor lies in [-maxHeight, 0]. *)
Theorem combined_in_unit_target_in_range
    (maxH : R) (p : Pillar) (now freqMultiplier ampMultiplier : R) :
  0 <= maxH ->
  0.1 <= freqMultiplier <= 3.0 ->
  0.1 <= ampMultiplier <= 1.0 ->
  0 <= combined p now freqMultiplier ampMultiplier <= 1 /\
  - maxH <= newTarget maxH p now freqMultiplier ampMultiplier <= 0.
Proof.
  intros Hm _ Ha. split.
  - apply combined_range. lra.
  - apply newTarget_range; lra.
Qed.

Lemma combined_in_unit_target_in_range_witness :
  0 <= maxHeight /\ 0.1 <= 1.0 <= 3.0 /\ 0.1 <= 1.0 <= 1.0 /\
  0 <= combined samplePillar 2 1.0 1.0 <= 1 /\
  - maxHeight <= newTarget maxHeight samplePillar 2 1.0 1.0 <= 0.
Proof.
  assert (Hm : 0 <= maxHeight) by (unfold maxHeight; lra).
  assert (Hf : 0.1 <= 1.0 <= 3.0) by lra.
  assert (Ha : 0.1 <= 1.0 <= 1.0) by lra.
  split; [exact Hm | split; [exact Hf | split; [exact Ha |]]].
  exact (combined_in_unit_target_in_range
           maxHeight samplePillar 2 1.0 1.0 Hm Hf Ha).
Defined.

(** ** One update of one pillar *)

(** The two ways through the conditional of [updatePillars]. *)
Lemma updatePillar_arrive (maxH now dt freq amp : R) (p : Pillar) :
  (elapsedTime p + dt) / animationDuration p >= 1.0 ->
  updatePillar maxH now dt freq amp p =
  mkPillar (x p) (z p) (targetHeightFactor p) (newTarget maxH p now freq amp)
    (targetHeightFactor p
     + (newTarget maxH p now freq amp - targetHeightFactor p)
       * easeInOutQuad 0.0)
    0.0 (animationDuration p).
Proof.
  intros Ht. unfold updatePillar.
  cbn [setElapsedTime elapsedTime animationDuration].
  destruct (Rge_dec ((elapsedTime p + dt) / animationDuration p) 1.0)
    as [_ | Hn]; [reflexivity | contradiction].
Qed.

Lemma updatePillar_travel (maxH now dt freq amp : R) (p : Pillar) :
  ~ (elapsedTime p + dt) / animationDuration p >= 1.0 ->
  updatePillar maxH now dt freq amp p =
  mkPillar (x p) (z p) (startHeightFactor p) (targetHeightFactor p)
    (startHeightFactor p
     + (targetHeightFactor p - startHeightFactor p)
       * easeInOutQuad ((elapsedTime p + dt) / animationDuration p))
    (elapsedTime p + dt) (animationDuration p).
Proof.
  intros Ht. unfold updatePillar.
  cbn [setElapsedTime elapsedTime animationDuration].
  destruct (Rge_dec ((elapsedTime p + dt) / animationDuration p) 1.0)
    as [Hy | _]; [contradiction | reflexivity].
Qed.

Lemma easeInOutQuad_0 : easeInOutQuad 0.0 = 0.
Proof. rewrite easeInOutQuad_low; lra. Qed.

(** Fractions of a positive duration. *)
Lemma fraction_ge_1 (a d : R) : 0 < d -> (a / d >= 1.0 <-> d <= a).
Proof.
  intros Hd. split; intros H.
  - apply Rge_le in H.
    apply (Rmult_le_compat_r d) in H; [| lra].
    unfold Rdiv in H. rewrite Rmult_assoc, Rinv_l in H by lra. lra.
  - apply Rle_ge. apply (Rmult_le_reg_r d); [assumption |].
    unfold Rdiv. rewrite Rmult_assoc, Rinv_l by lra. lra.
Qed.

Lemma fraction_nonneg (a d : R) : 0 < d -> 0 <= a -> 0 <= a / d.
Proof.
  intros Hd Ha. unfold Rdiv. apply Rmult_le_pos; [assumption |].
  left. now apply Rinv_0_lt_compat.
Qed.

(** C5: in every update step in which the fraction
    elapsedTime/animationDuration reaches or exceeds 1.0, the pillar leaves
    the step with elapsedTime 0 and with currentHeightFactor equal to its
    startHeightFactor, which is the target it had just reached. *)
Theorem retarget_resets_timer_and_height
    (maxH now dt freqMultiplier ampMultiplier : R) (p : Pillar) :
  (elapsedTime p + dt) / animationDuration p >= 1.0 ->
  elapsedTime (updatePillar maxH now dt freqMultiplier ampMultiplier p) = 0 /\
  currentHeightFactor (updatePillar maxH now dt freqMultiplier ampMultiplier p)
  = startHeightFactor (updatePillar maxH now dt freqMultiplier ampMultiplier p)
  /\
  startHeightFactor (updatePillar maxH now dt freqMultiplier ampMultiplier p)
  = targetHeightFactor p.
Proof.
  intros Ht. rewrite (updatePillar_arrive _ _ _ _ _ _ Ht).
  cbn [elapsedTime currentHeightFactor startHeightFactor].
  rewrite easeInOutQuad_0. repeat split; lra.
Qed.

Lemma random_ordered (r lo hi : R) :
  0 <= r < 1 -> lo <= hi -> lo <= random r lo hi <= hi.
Proof.
  intros [Hr0 Hr1] Hle. unfold random.
  destruct (Rgt_dec lo hi) as [Hgt | _]; [lra |].
  split; nra.
Qed.

Lemma samplePillar_value :
  samplePillar = mkPillar (-15) (-15) (-13) (-13) (-13) 0 0.215.
Proof.
  unfold samplePillar, initPillar, random, rows, cols, spacing, maxHeight.
  destruct (Rgt_dec 1.0 25.0) as [H | _]; [lra |].
  destruct (Rgt_dec 0.1 0.33) as [H | _]; [lra |].
  simpl INR. f_equal; lra.
Qed.

Lemma retarget_resets_timer_and_height_witness :
  (elapsedTime samplePillar + 1) / animationDuration samplePillar >= 1.0 /\
  elapsedTime (updatePillar maxHeight 2 1 1.0 1.0 samplePillar) = 0 /\
  currentHeightFactor (updatePillar maxHeight 2 1 1.0 1.0 samplePillar)
  = startHeightFactor (updatePillar maxHeight 2 1 1.0 1.0 samplePillar) /\
  startHeightFactor (updatePillar maxHeight 2 1 1.0 1.0 samplePillar)
  = targetHeightFactor samplePillar.
Proof.
  assert (H : (elapsedTime samplePillar + 1) / animationDuration samplePillar
              >= 1.0).
  { rewrite samplePillar_value. cbn [elapsedTime animationDuration].
    apply fraction_ge_1; lra. }
  split; [exact H |].
  exact (retarget_resets_timer_and_height maxHeight 2 1 1.0 1.0 samplePillar H).
Defined.

(** ** What every reachable pillar satisfies *)

Lemma initPillar_inv (nrows ncols : nat) (space maxH : R) (rnd : nat -> R)
    (row col : nat) :
  (forall n, 0 <= rnd n < 1) ->
  pillarInv (initPillar nrows ncols space maxH rnd row col).
Proof.
  intros Hrnd. unfold pillarInv, initPillar.
  cbn [animationDuration elapsedTime currentHeightFactor startHeightFactor
       targetHeightFactor].
  set (k := (row * ncols + col)%nat).
  assert (Hd : 0.1 <= random (rnd (3 * k + 2)%nat) 0.1 0.33 <= 0.33).
  { apply random_ordered; [apply Hrnd | lra]. }
  split; [lra | split; [lra |]].
  replace (0.0 / random (rnd (3 * k + 2)%nat) 0.1 0.33) with 0.0
    by (unfold Rdiv; lra).
  rewrite easeInOutQuad_0. lra.
Qed.

Lemma updatePillar_inv (maxH now dt freq amp : R) (p : Pillar) :
  pillarInv p -> 0 <= dt -> pillarInv (updatePillar maxH now dt freq amp p).
Proof.
  intros (Hd & [He0 He1] & Hc) Hdt.
  destruct (Rge_dec ((elapsedTime p + dt) / animationDuration p) 1.0)
    as [Hge | Hlt].
  - rewrite (updatePillar_arrive _ _ _ _ _ _ Hge). unfold pillarInv.
    cbn [animationDuration elapsedTime currentHeightFactor startHeightFactor
         targetHeightFactor].
    replace (0.0 / animationDuration p) with 0.0 by (unfold Rdiv; lra).
    repeat split; lra.
  - rewrite (updatePillar_travel _ _ _ _ _ _ Hlt). unfold pillarInv.
    cbn [animationDuration elapsedTime currentHeightFactor startHeightFactor
         targetHeightFactor].
    assert (Hnot : ~ animationDuration p <= elapsedTime p + dt).
    { intros H. apply Hlt. now apply fraction_ge_1. }
    repeat split; lra.
Qed.

Lemma in_initPillars (nrows ncols : nat) (space maxH : R) (rnd : nat -> R)
    (p : Pillar) :
  In p (initPillars nrows ncols space maxH rnd) ->
  exists row col, p = initPillar nrows ncols space maxH rnd row col.
Proof.
  unfold initPillars. intros H.
  apply in_flat_map in H. destruct H as (row & _ & H).
  apply in_map_iff in H. destruct H as (col & <- & _).
  now exists row, col.
Qed.

Lemma reachable_inv (maxH : R) (pillars : list Pillar) :
  reachable maxH pillars -> Forall pillarInv pillars.
Proof.
  induction 1 as [nrows ncols space rnd Hrnd | pillars f _ IH Hdt].
  - apply Forall_forall. intros p Hp.
    apply in_initPillars in Hp. destruct Hp as (row & col & ->).
    now apply initPillar_inv.
  - unfold stepFrame, updatePillars. apply Forall_map.
    eapply Forall_impl; [| exact IH].
    intros p Hp. now apply updatePillar_inv.
Qed.

(** C6: one update of a pillar the program can hold tolerates every dt >= 0.
    With dt = 0 the timer, the fraction, the displayed height and both end
    heights are unchanged.  For any dt, however large, the conditional is
    taken at most once: either the timer stays below animationDuration and
    becomes the old timer plus dt with start and target untouched, or exactly
    one retarget happens (start becomes the old target, target becomes the wave
    height of this call) and the timer is exactly 0. *)
Theorem updatePillar_single_retarget
    (maxH : R) (pillars : list Pillar) (p : Pillar)
    (now dt freqMultiplier ampMultiplier : R) :
  reachable maxH pillars -> In p pillars -> 0 <= dt ->
  let p' := updatePillar maxH now dt freqMultiplier ampMultiplier p in
  (dt = 0 ->
     elapsedTime p' = elapsedTime p /\
     elapsedTime p' / animationDuration p'
     = elapsedTime p / animationDuration p /\
     currentHeightFactor p' = currentHeightFactor p /\
     startHeightFactor p' = startHeightFactor p /\
     targetHeightFactor p' = targetHeightFactor p) /\
  animationDuration p' = animationDuration p /\
  ((elapsedTime p + dt < animationDuration p /\
    elapsedTime p' = elapsedTime p + dt /\
    startHeightFactor p' = startHeightFactor p /\
    targetHeightFactor p' = targetHeightFactor p)
   \/
   (animationDuration p <= elapsedTime p + dt /\
    elapsedTime p' = 0 /\
    startHeightFactor p' = targetHeightFactor p /\
    targetHeightFactor p'
    = newTarget maxH p now freqMultiplier ampMultiplier)).
Proof.
  intros Hreach Hin Hdt p'.
  pose proof (reachable_inv _ _ Hreach) as Hall.
  rewrite Forall_forall in Hall.
  destruct (Hall p Hin) as (Hd & [He0 He1] & Hc).
  destruct (Rge_dec ((elapsedTime p + dt) / animationDuration p) 1.0)
    as [Hge | Hlt].
  - assert (Hp : p' = _) by exact (updatePillar_arrive _ _ _ _ _ _ Hge).
    assert (Hfull : animationDuration p <= elapsedTime p + dt)
      by now apply fraction_ge_1.
    rewrite Hp.
    cbn [animationDuration elapsedTime currentHeightFactor startHeightFactor
         targetHeightFactor].
    split; [intros ->; lra |].
    split; [reflexivity |].
    right. repeat split; lra.
  - assert (Hp : p' = _) by exact (updatePillar_travel _ _ _ _ _ _ Hlt).
    assert (Hpart : elapsedTime p + dt < animationDuration p).
    { apply Rnot_le_lt. intros H. apply Hlt. now apply fraction_ge_1. }
    rewrite Hp.
    cbn [animationDuration elapsedTime currentHeightFactor startHeightFactor
         targetHeightFactor].
    split.
    + intros ->. rewrite Rplus_0_r. repeat split; lra.
    + split; [reflexivity |].
      left. repeat split; lra.
Qed.

Lemma samplePillar_reachable :
  reachable maxHeight (initPillars rows cols spacing maxHeight (fun _ => 0.5))
  /\ In samplePillar
        (initPillars rows cols spacing maxHeight (fun _ => 0.5)).
Proof.
  split.
  - apply reach_init. intros _. lra.
  - unfold initPillars, rows, cols. cbn [seq flat_map map app].
    left. reflexivity.
Qed.

Lemma updatePillar_single_retarget_witness :
  reachable maxHeight (initPillars rows cols spacing maxHeight (fun _ => 0.5))
  /\ In samplePillar (initPillars rows cols spacing maxHeight (fun _ => 0.5))
  /\ 0 <= 1000 /\
  animationDuration (updatePillar maxHeight 2 1000 1.0 1.0 samplePillar)
  = animationDuration samplePillar /\
  ((elapsedTime samplePillar + 1000 < animationDuration samplePillar /\
    elapsedTime (updatePillar maxHeight 2 1000 1.0 1.0 samplePillar)
    = elapsedTime samplePillar + 1000 /\
    startHeightFactor (updatePillar maxHeight 2 1000 1.0 1.0 samplePillar)
    = startHeightFactor samplePillar /\
    targetHeightFactor (updatePillar maxHeight 2 1000 1.0 1.0 samplePillar)
    = targetHeightFactor samplePillar)
   \/
   (animationDuration samplePillar <= elapsedTime samplePillar + 1000 /\
    elapsedTime (updatePillar maxHeight 2 1000 1.0 1.0 samplePillar) = 0 /\
    startHeightFactor (updatePillar maxHeight 2 1000 1.0 1.0 samplePillar)
    = targetHeightFactor samplePillar /\
    targetHeightFactor (updatePillar maxHeight 2 1000 1.0 1.0 samplePillar)
    = newTarget maxHeight samplePillar 2 1.0 1.0)).
Proof.
  destruct samplePillar_reachable as [Hr Hi].
  assert (Hdt : 0 <= 1000) by lra.
  split; [exact Hr | split; [exact Hi | split; [exact Hdt |]]].
  exact (proj2 (updatePillar_single_retarget
                  maxHeight _ samplePillar 2 1000 1.0 1.0 Hr Hi Hdt)).
Defined.

(** ** Height bounds along a run *)

Lemma initState_heightInv (maxH : R) (p : Pillar) :
  initState maxH p -> heightInv maxH p.
Proof.
  intros (Hs & Ht & Hc & He & Hd). unfold heightInv. rewrite He.
  repeat split; try lra; tauto.
Qed.

Lemma interpolation_range (lo a b e : R) :
  lo <= a <= 0 -> lo <= b <= 0 -> 0 <= e <= 1 -> lo <= a + (b - a) * e <= 0.
Proof. intros Ha Hb He. split; nra. Qed.

Lemma updatePillar_heightInv (maxH : R) (f : Frame) (p : Pillar) :
  heightInv maxH p -> frameOk f ->
  heightInv maxH (updatePillar maxH (fTime f) (fDt f) (fFreq f) (fAmp f) p).
Proof.
  intros (Hs & Ht & Hc & He & Hd) (Hdt & Hfreq & Hamp).
  assert (Hm : 0 <= maxH) by lra.
  destruct (Rge_dec ((elapsedTime p + fDt f) / animationDuration p) 1.0)
    as [Hge | Hlt].
  - rewrite (updatePillar_arrive _ _ _ _ _ _ Hge). unfold heightInv.
    cbn [animationDuration elapsedTime currentHeightFactor startHeightFactor
         targetHeightFactor].
    pose proof (newTarget_range maxH p (fTime f) (fFreq f) (fAmp f) Hm) as Hn.
    assert (Hn' : - maxH <= newTarget maxH p (fTime f) (fFreq f) (fAmp f) <= 0)
      by (apply Hn; lra).
    rewrite easeInOutQuad_0. repeat split; lra.
  - rewrite (updatePillar_travel _ _ _ _ _ _ Hlt). unfold heightInv.
    cbn [animationDuration elapsedTime currentHeightFactor startHeightFactor
         targetHeightFactor].
    assert (Hfrac : 0 <= (elapsedTime p + fDt f) / animationDuration p <= 1).
    { split; [apply fraction_nonneg; lra |].
      apply Rnot_ge_lt in Hlt. lra. }
    pose proof (easeInOutQuad_unit _ Hfrac) as Hease.
    pose proof (interpolation_range (- maxH) _ _ _ Hs Ht Hease) as Hcur.
    repeat split; lra.
Qed.

Lemma runFrames_heightInv (maxH : R) (frames : list Frame) :
  Forall frameOk frames ->
  forall pillars,
    Forall (heightInv maxH) pillars ->
    Forall (heightInv maxH) (runFrames maxH frames pillars).
Proof.
  unfold runFrames. induction 1 as [| f frames Hf _ IH]; intros pillars Hps.
  - exact Hps.
  - cbn [fold_left]. apply IH.
    unfold stepFrame, updatePillars. apply Forall_map.
    eapply Forall_impl; [| exact Hps].
    intros p Hp. now apply updatePillar_heightInv.
Qed.

Lemma initPillars_initState (nrows ncols : nat) (space maxH : R)
    (rnd : nat -> R) :
  1 <= maxH -> (forall n, 0 <= rnd n < 1) ->
  Forall (initState maxH) (initPillars nrows ncols space maxH rnd).
Proof.
  intros Hm Hrnd. apply Forall_forall. intros p Hp.
  apply in_initPillars in Hp. destruct Hp as (row & col & ->).
  pose proof (initPillar_inv nrows ncols space maxH rnd row col Hrnd)
    as (Hd & _ & _).
  unfold initState, initPillar in *.
  cbn [animationDuration elapsedTime currentHeightFactor startHeightFactor
       targetHeightFactor] in *.
  set (k := (row * ncols + col)%nat) in *.
  assert (Hr : forall r, 0 <= r < 1 -> 1.0 <= random r 1.0 maxH <= maxH).
  { intros r Hr. apply random_ordered; [exact Hr | lra]. }
  pose proof (Hr _ (Hrnd (3 * k)%nat)).
  pose proof (Hr _ (Hrnd (3 * k + 1)%nat)).
  repeat split; lra.
Qed.

(** C3: from any pillar array in the state initPillars leaves it in (start,
    target and current height factors in [-maxHeight, 0], elapsedTime 0,
    animationDuration > 0), after every finite sequence of updatePillars
    steps with dt >= 0, freqMultiplier in [0.1, 3.0] and ampMultiplier in
    [0.1, 1.0], every pillar's currentHeightFactor is in [-maxHeight, 0]. *)
Theorem currentHeightFactor_stays_in_range
    (maxH : R) (pillars : list Pillar) (frames : list Frame) :
  Forall (initState maxH) pillars ->
  Forall frameOk frames ->
  Forall (fun p => - maxH <= currentHeightFactor p <= 0)
         (runFrames maxH frames pillars).
Proof.
  intros Hinit Hframes.
  eapply Forall_impl;
    [| apply (runFrames_heightInv maxH frames Hframes pillars)].
  - intros p (_ & _ & Hc & _). exact Hc.
  - eapply Forall_impl; [| exact Hinit].
    intros p. apply initState_heightInv.
Qed.

Lemma sampleFrames_ok : Forall frameOk sampleFrames.
Proof.
  unfold sampleFrames. apply Forall_map. apply Forall_forall.
  intros k _. unfold frameOk. cbn [fDt fFreq fAmp]. lra.
Qed.

Lemma currentHeightFactor_stays_in_range_witness :
  Forall (initState 10) sampleGrid /\
  Forall frameOk sampleFrames /\
  length sampleGrid = 4%nat /\ length sampleFrames = 10%nat /\
  Forall (fun p => - 10 <= currentHeightFactor p <= 0)
         (runFrames 10 sampleFrames sampleGrid).
Proof.
  assert (Hi : Forall (initState 10) sampleGrid).
  { apply initPillars_initState; [lra | intros _; lra]. }
  split; [exact Hi |].
  split; [exact sampleFrames_ok |].
  split; [reflexivity |].
  split; [reflexivity |].
  exact (currentHeightFactor_stays_in_range
           10 sampleGrid sampleFrames Hi sampleFrames_ok).
Defined.

(** ** Face normals *)

Lemma computeNormal_edgeCross (p1 p2 p3 : vec3) :
  computeNormal p1 p2 p3 =
  if Rgt_dec (edgeCrossLength p1 p2 p3) 0.0
  then Vec3 (vx (edgeCross p1 p2 p3) / edgeCrossLength p1 p2 p3)
            (vy (edgeCross p1 p2 p3) / edgeCrossLength p1 p2 p3)
            (vz (edgeCross p1 p2 p3) / edgeCrossLength p1 p2 p3)
  else edgeCross p1 p2 p3.
Proof. reflexivity. Qed.

Lemma computeNormal_unit_cross (p1 p2 p3 n : vec3) :
  edgeCross p1 p2 p3 = n ->
  vx n * vx n + vy n * vy n + vz n * vz n = 1 ->
  computeNormal p1 p2 p3 = n.
Proof.
  intros Hn Hlen. rewrite computeNormal_edgeCross.
  assert (Hl : edgeCrossLength p1 p2 p3 = 1).
  { unfold edgeCrossLength. cbv zeta. rewrite Hn, Hlen. apply sqrt_1. }
  rewrite Hl, Hn.
  destruct (Rgt_dec 1 0.0) as [_ | Hno]; [| lra].
  destruct n as [a b c]. cbn [vx vy vz]. f_equal; lra.
Qed.

Lemma rotateTranslate_identity (c : vec3) : rotateTranslate 1 0 0 0 0 c = c.
Proof.
  destruct c as [a b c]. unfold rotateTranslate. cbn [vx vy vz].
  f_equal; lra.
Qed.

Lemma vec3_eq (a b c a' b' c' : R) :
  a = a' -> b = b' -> c = c' -> Vec3 a b c = Vec3 a' b' c'.
Proof. now intros -> -> ->. Qed.

(** With no rotation and no offset the corners stay where they are. *)
Lemma createCube_unit_corners :
  map (rotateTranslate (cos 0) (sin 0) 0 0 0) (cubeCorners (1.0 / 2) 1.0)
  = cubeCorners (1.0 / 2) 1.0.
Proof.
  rewrite cos_0, sin_0.
  rewrite (map_ext _ (fun c => c) rotateTranslate_identity).
  apply map_id.
Qed.

Ltac unit_normal :=
  apply computeNormal_unit_cross;
  [ unfold edgeCross, corner, cubeCorners; cbn [nth vx vy vz];
    apply vec3_eq; lra
  | cbn [vx vy vz]; lra ].

(** The six normals [createCube] computes for the unrotated unit cube, in the
    order of the face table. *)
Lemma createCube_unit_computeNormal :
  let cs := cubeCorners (1.0 / 2) 1.0 in
  computeNormal (corner cs 0) (corner cs 1) (corner cs 2) = Vec3 0 0 1 /\
  computeNormal (corner cs 4) (corner cs 5) (corner cs 6) = Vec3 0 0 1 /\
  computeNormal (corner cs 0) (corner cs 1) (corner cs 5) = Vec3 0 (-1) 0 /\
  computeNormal (corner cs 2) (corner cs 3) (corner cs 7) = Vec3 0 1 0 /\
  computeNormal (corner cs 0) (corner cs 3) (corner cs 7) = Vec3 1 0 0 /\
  computeNormal (corner cs 1) (corner cs 2) (corner cs 6) = Vec3 1 0 0.
Proof.
  intro cs. subst cs. repeat split; unit_normal.
Qed.

Lemma createCube_unit_value :
  createCube 0 0 0 1.0 0 =
  let cs := cubeCorners (1.0 / 2) 1.0 in
  makeFace cs 0 1 2 3 (Vec3 0 0 1) ++
  makeFace cs 4 5 6 7 (Vec3 0 0 1) ++
  makeFace cs 0 1 5 4 (Vec3 0 (-1) 0) ++
  makeFace cs 2 3 7 6 (Vec3 0 1 0) ++
  makeFace cs 0 3 7 4 (Vec3 1 0 0) ++
  makeFace cs 1 2 6 5 (Vec3 1 0 0).
Proof.
  unfold createCube. cbv zeta. rewrite createCube_unit_corners.
  destruct createCube_unit_computeNormal as (H1 & H2 & H3 & H4 & H5 & H6).
  cbv zeta in H1, H2, H3, H4, H5, H6.
  unfold faces. cbn [flat_map].
  rewrite H1, H2, H3, H4, H5, H6. rewrite app_nil_r. reflexivity.
Qed.

(** C1 (evaluation of the code): for center (0,0), heightFactor 1.0 and angle
    0, createCube returns 36 vertex records, six per face; the normals of the
    six faces, in table order, are (0,0,1), (0,0,1), (0,-1,0), (0,1,0),
    (1,0,0), (1,0,0).  They are axis-aligned unit vectors, but only four of
    them are distinct: (0,0,-1) and (-1,0,0) never occur.  The first face,
    which lies in the plane z = -1/2, and the fifth, which lies in the plane
    x = -1/2, carry the normal of the opposite face, pointing into the
    cube. *)
Theorem createCube_unit_face_normals :
  length (createCube 0 0 0 1.0 0) = 36%nat /\
  faceNormals 6 (createCube 0 0 0 1.0 0)
  = [Vec3 0 0 1; Vec3 0 0 1; Vec3 0 (-1) 0; Vec3 0 1 0; Vec3 1 0 0; Vec3 1 0 0]
  /\
  map normalOf (createCube 0 0 0 1.0 0)
  = flat_map (fun n => repeat n 6)
      [Vec3 0 0 1; Vec3 0 0 1; Vec3 0 (-1) 0; Vec3 0 1 0; Vec3 1 0 0;
       Vec3 1 0 0] /\
  ~ In (Vec3 0 0 (-1)) (map normalOf (createCube 0 0 0 1.0 0)) /\
  ~ In (Vec3 (-1) 0 0) (map normalOf (createCube 0 0 0 1.0 0)) /\
  Forall (fun v => pz v = -0.5 /\ normalOf v = Vec3 0 0 1)
         (firstn 6 (createCube 0 0 0 1.0 0)) /\
  Forall (fun v => px v = -0.5 /\ normalOf v = Vec3 1 0 0)
         (firstn 6 (skipn 24 (createCube 0 0 0 1.0 0))).
Proof.
  rewrite createCube_unit_value. cbv zeta.
  set (cs := cubeCorners (1.0 / 2) 1.0).
  assert (Hn : map normalOf
                 (makeFace cs 0 1 2 3 (Vec3 0 0 1) ++
                  makeFace cs 4 5 6 7 (Vec3 0 0 1) ++
                  makeFace cs 0 1 5 4 (Vec3 0 (-1) 0) ++
                  makeFace cs 2 3 7 6 (Vec3 0 1 0) ++
                  makeFace cs 0 3 7 4 (Vec3 1 0 0) ++
                  makeFace cs 1 2 6 5 (Vec3 1 0 0))
               = flat_map (fun n => repeat n 6)
                   [Vec3 0 0 1; Vec3 0 0 1; Vec3 0 (-1) 0; Vec3 0 1 0;
                    Vec3 1 0 0; Vec3 1 0 0]) by reflexivity.
  split; [reflexivity |].
  split; [reflexivity |].
  split; [exact Hn |].
  split; [| split; [| split]].
  - rewrite Hn. cbn [flat_map repeat app In].
    intros H. repeat (destruct H as [H | H]; [injection H; intros; lra |]).
    exact H.
  - rewrite Hn. cbn [flat_map repeat app In].
    intros H. repeat (destruct H as [H | H]; [injection H; intros; lra |]).
    exact H.
  - subst cs. unfold makeFace, cubeCorners, corner, vertexOf.
    cbn [app firstn nth vx vy vz].
    repeat (apply Forall_cons;
            [cbn [pz normalOf nx ny nz]; split; [lra | reflexivity] |]).
    apply Forall_nil.
  - subst cs. unfold makeFace, cubeCorners, corner, vertexOf.
    cbn [app firstn skipn nth vx vy vz].
    repeat (apply Forall_cons;
            [cbn [px normalOf nx ny nz]; split; [lra | reflexivity] |]).
    apply Forall_nil.
Qed.

(** ** Rotation about the Y axis *)

(** C8: rotating a corner about the Y axis by theta and then by -theta, with
    the rotation formula of createCube and no translation, gives the corner
    back. *)
Theorem rotateTranslate_round_trip (theta : R) (p : vec3) :
  rotateTranslate (cos (- theta)) (sin (- theta)) 0 0 0
    (rotateTranslate (cos theta) (sin theta) 0 0 0 p)
  = p.
Proof.
  rewrite cos_neg, sin_neg.
  pose proof (sin2_cos2 theta) as Hsc. unfold Rsqr in Hsc.
  destruct p as [a b c]. unfold rotateTranslate. cbn [vx vy vz].
  apply vec3_eq.
  - replace ((a * cos theta - c * sin theta + 0) * cos theta
             - (a * sin theta + c * cos theta + 0) * - sin theta + 0)
      with (a * (sin theta * sin theta + cos theta * cos theta)) by ring.
    rewrite Hsc. ring.
  - ring.
  - replace ((a * cos theta - c * sin theta + 0) * - sin theta
             + (a * sin theta + c * cos theta + 0) * cos theta + 0)
      with (c * (sin theta * sin theta + cos theta * cos theta)) by ring.
    rewrite Hsc. ring.
Qed.

(** ** Division sites *)

Lemma edgeCrossLength_nonneg (p1 p2 p3 : vec3) :
  0 <= edgeCrossLength p1 p2 p3.
Proof. unfold edgeCrossLength. cbv zeta. apply sqrt_pos. Qed.

Lemma sum_squares_zero (a b c : R) :
  a * a + b * b + c * c = 0 -> a = 0 /\ b = 0 /\ c = 0.
Proof. intros Hs. repeat split; nra. Qed.

Lemma edgeCrossLength_zero (p1 p2 p3 : vec3) :
  edgeCrossLength p1 p2 p3 = 0 -> edgeCross p1 p2 p3 = vzero.
Proof.
  unfold edgeCrossLength. cbv zeta. intros Hs.
  apply sqrt_eq_0 in Hs; [| nra].
  apply sum_squares_zero in Hs. destruct Hs as (Ha & Hb & Hc).
  destruct (edgeCross p1 p2 p3) as [a b c]. cbn [vx vy vz] in *.
  subst. reflexivity.
Qed.

(** [computeNormal]: the only divisor is the cross-product length, used
    under the guard [len > 0.0]; otherwise the cross product is returned as
    it is, and it is the zero vector. *)
Lemma computeNormal_guarded (p1 p2 p3 : vec3) :
  (edgeCrossLength p1 p2 p3 > 0 /\
   computeNormal p1 p2 p3
   = Vec3 (vx (edgeCross p1 p2 p3) / edgeCrossLength p1 p2 p3)
          (vy (edgeCross p1 p2 p3) / edgeCrossLength p1 p2 p3)
          (vz (edgeCross p1 p2 p3) / edgeCrossLength p1 p2 p3))
  \/
  (edgeCrossLength p1 p2 p3 = 0 /\ computeNormal p1 p2 p3 = vzero).
Proof.
  rewrite computeNormal_edgeCross.
  pose proof (edgeCrossLength_nonneg p1 p2 p3) as Hpos.
  destruct (Rgt_dec (edgeCrossLength p1 p2 p3) 0.0) as [Hgt | Hle].
  - left. split; [lra | reflexivity].
  - right. assert (Hz : edgeCrossLength p1 p2 p3 = 0) by lra.
    split; [exact Hz | now apply edgeCrossLength_zero].
Qed.

(** ** GLSL built-ins *)

Lemma clamp_range (x lo hi : R) :
  lo <= hi -> lo <= Fragment.clamp x lo hi <= hi.
Proof.
  intros Hle. unfold Fragment.clamp, Rmin, Rmax.
  destruct (Rle_dec x lo); destruct (Rle_dec _ hi); lra.
Qed.

Lemma clamp_below (x lo hi : R) :
  lo <= hi -> x <= lo -> Fragment.clamp x lo hi = lo.
Proof.
  intros Hle Hx. unfold Fragment.clamp, Rmin, Rmax.
  destruct (Rle_dec x lo); destruct (Rle_dec _ hi); lra.
Qed.

Lemma clamp_above (x lo hi : R) :
  lo <= hi -> hi <= x -> Fragment.clamp x lo hi = hi.
Proof.
  intros Hle Hx. unfold Fragment.clamp, Rmin, Rmax.
  destruct (Rle_dec x lo); destruct (Rle_dec _ hi); lra.
Qed.

Lemma clamp_inside (x lo hi : R) :
  lo <= x <= hi -> Fragment.clamp x lo hi = x.
Proof.
  intros Hx. unfold Fragment.clamp, Rmin, Rmax.
  destruct (Rle_dec x lo); destruct (Rle_dec _ hi); lra.
Qed.

Lemma smoothstep_below (edge0 edge1 x : R) :
  edge0 < edge1 -> x <= edge0 -> Fragment.smoothstep edge0 edge1 x = 0.
Proof.
  intros He Hx. unfold Fragment.smoothstep. cbv zeta.
  rewrite clamp_below; [lra | lra |].
  assert (Hi : 0 < / (edge1 - edge0)) by (apply Rinv_0_lt_compat; lra).
  unfold Rdiv. nra.
Qed.

Lemma smoothstep_above (edge0 edge1 x : R) :
  edge0 < edge1 -> edge1 <= x -> Fragment.smoothstep edge0 edge1 x = 1.
Proof.
  intros He Hx. unfold Fragment.smoothstep. cbv zeta.
  rewrite clamp_above; [lra | lra |].
  apply (Rmult_le_reg_r (edge1 - edge0)); [lra |].
  unfold Rdiv. rewrite Rmult_assoc, Rinv_l by lra. lra.
Qed.

Lemma smoothstep_range (edge0 edge1 x : R) :
  0 <= Fragment.smoothstep edge0 edge1 x <= 1.
Proof.
  unfold Fragment.smoothstep. cbv zeta.
  assert (H01 : 0.0 <= 1.0) by lra.
  pose proof (clamp_range ((x - edge0) / (edge1 - edge0)) 0.0 1.0 H01)
    as [Hl Hu].
  set (t := Fragment.clamp ((x - edge0) / (edge1 - edge0)) 0.0 1.0) in *.
  assert (Hlow : 0 <= t * t * (3.0 - 2.0 * t))
    by (apply Rmult_le_pos; nra).
  assert (Hup : 0 <= (1 - t) * (1 - t) * (1 + 2 * t))
    by (apply Rmult_le_pos; nra).
  replace ((1 - t) * (1 - t) * (1 + 2 * t))
    with (1 - t * t * (3.0 - 2.0 * t)) in Hup by nra.
  lra.
Qed.

Lemma mix3_weight_0 (a b : vec3) : Fragment.mix3 a b 0 = a.
Proof.
  destruct a as [a0 a1 a2]. unfold Fragment.mix3, Fragment.mix.
  cbn [vx vy vz]. apply vec3_eq; ring.
Qed.

Lemma mix3_weight_1 (a b : vec3) : Fragment.mix3 a b 1 = b.
Proof.
  destruct b as [b0 b1 b2]. unfold Fragment.mix3, Fragment.mix.
  cbn [vx vy vz]. apply vec3_eq; ring.
Qed.

(** ** Normalised vectors *)

Lemma dot_self_nonneg (v : vec3) : 0 <= Fragment.dot v v.
Proof. unfold Fragment.dot. nra. Qed.

Lemma normalize_norm (v : vec3) :
  Fragment.dot (Fragment.normalize v) (Fragment.normalize v) <= 1.
Proof.
  pose proof (dot_self_nonneg v) as Hd.
  unfold Fragment.normalize, Fragment.length3.
  destruct (Req_dec (Fragment.dot v v) 0) as [Hz | Hnz].
  - rewrite Hz, sqrt_0. unfold Fragment.dot at 1. cbn [vx vy vz].
    unfold Rdiv. rewrite Rinv_0. lra.
  - assert (Hs : 0 < sqrt (Fragment.dot v v)) by (apply sqrt_lt_R0; lra).
    pose proof (sqrt_sqrt _ Hd) as Hss.
    set (l := sqrt (Fragment.dot v v)) in *.
    unfold Fragment.dot at 1. cbn [vx vy vz].
    replace (vx v / l * (vx v / l) + vy v / l * (vy v / l)
             + vz v / l * (vz v / l))
      with (Fragment.dot v v / (l * l))
      by (unfold Fragment.dot; field; lra).
    rewrite Hss. unfold Rdiv. rewrite Rinv_r by assumption. lra.
Qed.

Lemma cauchy_schwarz (a b : vec3) :
  Fragment.dot a b * Fragment.dot a b
  <= Fragment.dot a a * Fragment.dot b b.
Proof.
  destruct a as [a0 a1 a2], b as [b0 b1 b2].
  unfold Fragment.dot. cbn [vx vy vz].
  assert (Hid : (a0 * a0 + a1 * a1 + a2 * a2) * (b0 * b0 + b1 * b1 + b2 * b2)
                - (a0 * b0 + a1 * b1 + a2 * b2) * (a0 * b0 + a1 * b1 + a2 * b2)
                = (a0 * b1 - a1 * b0) * (a0 * b1 - a1 * b0)
                  + (a0 * b2 - a2 * b0) * (a0 * b2 - a2 * b0)
                  + (a1 * b2 - a2 * b1) * (a1 * b2 - a2 * b1)) by ring.
  pose proof (Rle_0_sqr (a0 * b1 - a1 * b0)) as H1.
  pose proof (Rle_0_sqr (a0 * b2 - a2 * b0)) as H2.
  pose proof (Rle_0_sqr (a1 * b2 - a2 * b1)) as H3.
  unfold Rsqr in H1, H2, H3. lra.
Qed.

Lemma dot_normalized_le_1 (a b : vec3) :
  Fragment.dot (Fragment.normalize a) (Fragment.normalize b) <= 1.
Proof.
  pose proof (cauchy_schwarz (Fragment.normalize a) (Fragment.normalize b)).
  pose proof (normalize_norm a). pose proof (normalize_norm b).
  pose proof (dot_self_nonneg (Fragment.normalize a)).
  pose proof (dot_self_nonneg (Fragment.normalize b)).
  nra.
Qed.

Lemma Rmax_0_range (d : R) : d <= 1 -> 0 <= Rmax d 0.0 <= 1.
Proof. intros Hd. unfold Rmax. destruct (Rle_dec d 0.0); lra. Qed.

Lemma Rmax_0_nonneg (d : R) : 0 <= Rmax d 0.0.
Proof. unfold Rmax. destruct (Rle_dec d 0.0); lra. Qed.

Lemma NdotH_range (vNormal uCamPos vWorldPosition uSunLightDir : vec3) :
  0 <= Fragment.NdotH vNormal uCamPos vWorldPosition uSunLightDir <= 1.
Proof.
  unfold Fragment.NdotH, Fragment.N, Fragment.H.
  apply Rmax_0_range. apply dot_normalized_le_1.
Qed.

Lemma denom_positive
    (vNormal uCamPos vWorldPosition uSunLightDir : vec3) (roughness : R) :
  roughness <> 0 ->
  0 < Fragment.denom vNormal uCamPos vWorldPosition uSunLightDir roughness.
Proof.
  intros Hr. unfold Fragment.denom.
  pose proof (NdotH_range vNormal uCamPos vWorldPosition uSunLightDir)
    as [Hl Hu].
  set (h := Fragment.NdotH vNormal uCamPos vWorldPosition uSunLightDir) in *.
  assert (Ha : 0 < Fragment.alpha2 roughness).
  { unfold Fragment.alpha2, Fragment.alpha.
    assert (0 < roughness * roughness) by nra. nra. }
  assert (Hh : 0 <= h * h <= 1) by nra.
  nra.
Qed.

Lemma D_divisor_positive
    (vNormal uCamPos vWorldPosition uSunLightDir : vec3) (roughness : R) :
  roughness <> 0 ->
  0 < Fragment.D_divisor vNormal uCamPos vWorldPosition uSunLightDir roughness.
Proof.
  intros Hr. unfold Fragment.D_divisor.
  pose proof (denom_positive vNormal uCamPos vWorldPosition uSunLightDir
                roughness Hr) as Hd.
  pose proof PI_RGT_0 as Hpi.
  apply Rmult_lt_0_compat; [apply Rmult_lt_0_compat |]; assumption.
Qed.

Lemma denominator_lower_bound
    (vNormal uCamPos vWorldPosition uSunLightDir : vec3) :
  0 <= Fragment.NdotV vNormal uCamPos vWorldPosition /\
  0 <= Fragment.NdotL vNormal uSunLightDir /\
  0.001 <= Fragment.denominator vNormal uCamPos vWorldPosition uSunLightDir.
Proof.
  unfold Fragment.denominator, Fragment.NdotL, Fragment.NdotS,
         Fragment.NdotV.
  pose proof (Rmax_0_nonneg
                (Fragment.dot (Fragment.N vNormal)
                   (Fragment.V uCamPos vWorldPosition))) as Hv.
  pose proof (Rmax_0_nonneg
                (Fragment.dot (Fragment.N vNormal)
                   (Fragment.S uSunLightDir))) as Hl.
  repeat split; try assumption. nra.
Qed.

(** Outside the sketch's settings: with roughness 0 and the normal, the view
    direction and the sun direction all equal to the Y axis, the GGX divisor
    is 0. *)
Lemma D_divisor_zero_roughness :
  Fragment.D_divisor (Vec3 0 1 0) (Vec3 0 1 0) vzero (Vec3 0 1 0) 0 = 0.
Proof.
  assert (Hy : Fragment.normalize (Vec3 0 1 0) = Vec3 0 1 0).
  { unfold Fragment.normalize, Fragment.length3, Fragment.dot.
    cbn [vx vy vz].
    replace (0 * 0 + 1 * 1 + 0 * 0) with 1 by ring. rewrite sqrt_1.
    apply vec3_eq; lra. }
  assert (Hy2 : Fragment.normalize (Vec3 0 2 0) = Vec3 0 1 0).
  { unfold Fragment.normalize, Fragment.length3, Fragment.dot.
    cbn [vx vy vz].
    replace (0 * 0 + 2 * 2 + 0 * 0) with (2 * 2) by ring.
    rewrite sqrt_square by lra.
    apply vec3_eq; lra. }
  unfold Fragment.D_divisor, Fragment.denom, Fragment.NdotH, Fragment.H,
         Fragment.N, Fragment.V, Fragment.S, Fragment.alpha2, Fragment.alpha.
  replace (Fragment.vsub (Vec3 0 1 0) vzero) with (Vec3 0 1 0)
    by (unfold Fragment.vsub, vzero; cbn [vx vy vz]; apply vec3_eq; lra).
  rewrite Hy.
  replace (Fragment.vadd (Vec3 0 1 0) (Vec3 0 1 0)) with (Vec3 0 2 0)
    by (unfold Fragment.vadd; cbn [vx vy vz]; apply vec3_eq; lra).
  rewrite Hy2. unfold Fragment.dot. cbn [vx vy vz].
  replace (0 * 0 + 1 * 1 + 0 * 0) with 1 by ring.
  unfold Rmax. destruct (Rle_dec 1 0.0); [lra |]. nra.
Qed.

(** ** Palette blend *)

Lemma paletteStep_weight (u : nat -> vec3) (x : R) (b : vec3) (i : nat) :
  Fragment.paletteStep u 0.0 (1.0 / 5.0) x b i
  = Fragment.mix3 b (u (i + 1)%nat) (Fragment.paletteWeight i x).
Proof. reflexivity. Qed.

Lemma paletteBlend_unfold (u : nat -> vec3) (x : R) :
  Fragment.paletteBlend u x
  = Fragment.mix3
      (fold_left (Fragment.paletteStep u 0.0 (1.0 / 5.0) x) (seq 0 9)
                 (u 0%nat))
      (u 0%nat) (Fragment.wrapWeight x).
Proof. reflexivity. Qed.

Lemma paletteEdges (i : nat) :
  0 <= 0.0 + 1.0 / 5.0 * INR i /\
  0.0 + 1.0 / 5.0 * INR i < 0.0 + 1.0 / 5.0 * INR (i + 1) /\
  0.0 + 1.0 / 5.0 * INR (i + 1) = 0.2 * INR i + 0.2.
Proof.
  pose proof (pos_INR i) as Hi. rewrite plus_INR. cbn [INR].
  repeat split; lra.
Qed.

Lemma paletteWeight_before (i : nat) (x : R) :
  x <= 0.2 * INR i -> Fragment.paletteWeight i x = 0.
Proof.
  intros Hx. destruct (paletteEdges i) as (H0 & Hlt & He).
  unfold Fragment.paletteWeight. apply smoothstep_below; lra.
Qed.

Lemma paletteWeight_after (i : nat) (x : R) :
  0.2 * INR i + 0.2 <= x -> Fragment.paletteWeight i x = 1.
Proof.
  intros Hx. destruct (paletteEdges i) as (H0 & Hlt & He).
  unfold Fragment.paletteWeight. apply smoothstep_above; lra.
Qed.

Lemma paletteWeight_wrap (x : R) :
  Fragment.paletteWeight 4 x = Fragment.wrapWeight x.
Proof.
  unfold Fragment.paletteWeight, Fragment.wrapWeight.
  cbn [Nat.add INR]. f_equal; lra.
Qed.

Lemma paletteLoop_idle (u : nat -> vec3) (x : R) (l : list nat) :
  (forall i, In i l -> Fragment.paletteWeight i x = 0) ->
  forall b,
    fold_left (Fragment.paletteStep u 0.0 (1.0 / 5.0) x) l b = b.
Proof.
  induction l as [| i l IH]; intros Hw b.
  - reflexivity.
  - cbn [fold_left]. rewrite paletteStep_weight.
    rewrite (Hw i) by now left. rewrite mix3_weight_0.
    apply IH. intros j Hj. apply Hw. now right.
Qed.

Lemma paletteBlend_at_zero (u : nat -> vec3) :
  Fragment.paletteBlend u 0.0 = u 0%nat.
Proof.
  rewrite paletteBlend_unfold.
  rewrite paletteLoop_idle.
  - unfold Fragment.wrapWeight.
    rewrite smoothstep_below by lra. apply mix3_weight_0.
  - intros i _. apply paletteWeight_before.
    pose proof (pos_INR i). lra.
Qed.

(** On the last fifth of the range the loop has walked through the first
    four transitions completely, is inside the fifth, and has not started
    the remaining ones. *)
Lemma paletteBlend_last_fifth (u : nat -> vec3) (x : R) :
  0.8 <= x <= 1 ->
  Fragment.paletteBlend u x
  = Fragment.mix3
      (Fragment.mix3 (u 4%nat) (u 5%nat) (Fragment.wrapWeight x))
      (u 0%nat) (Fragment.wrapWeight x).
Proof.
  intros [Hl Hu]. rewrite paletteBlend_unfold. f_equal.
  change (seq 0 9) with ([0; 1; 2; 3; 4] ++ [5; 6; 7; 8])%nat.
  rewrite fold_left_app.
  rewrite paletteLoop_idle.
  - cbn [fold_left]. rewrite !paletteStep_weight. cbn [Nat.add].
    rewrite (paletteWeight_after 0) by (cbn [INR]; lra).
    rewrite (paletteWeight_after 1) by (cbn [INR]; lra).
    rewrite (paletteWeight_after 2) by (cbn [INR]; lra).
    rewrite (paletteWeight_after 3) by (cbn [INR]; lra).
    rewrite paletteWeight_wrap. rewrite !mix3_weight_1. reflexivity.
  - intros i Hi. apply paletteWeight_before.
    assert (Hi5 : (5 <= i)%nat).
    { cbn [In] in Hi. lia. }
    apply le_INR in Hi5. cbn [INR] in Hi5. lra.
Qed.

Lemma wrapWeight_range (x : R) : 0 <= Fragment.wrapWeight x <= 1.
Proof. unfold Fragment.wrapWeight. apply smoothstep_range. Qed.

Lemma wrapWeight_0999 : Fragment.wrapWeight 0.999 = 0.99992525.
Proof.
  unfold Fragment.wrapWeight, Fragment.smoothstep. cbv zeta.
  replace ((0.999 - (0.0 + 1.0 / 5.0 * 4.0))
           / (0.0 + 1.0 / 5.0 * 5.0 - (0.0 + 1.0 / 5.0 * 4.0)))
    with 0.995 by lra.
  rewrite clamp_inside by lra. lra.
Qed.

Lemma mix_twice_near (a0 a4 a5 s : R) :
  0 <= a0 <= 1 -> 0 <= a4 <= 1 -> 0 <= a5 <= 1 -> 0 <= s <= 1 ->
  Rabs (Fragment.mix (Fragment.mix a4 a5 s) a0 s - a0) <= 1 - s.
Proof.
  intros H0 H4 H5 Hs. unfold Fragment.mix.
  assert (Hm : 0 <= a4 * (1 - s) + a5 * s <= 1) by nra.
  set (m := a4 * (1 - s) + a5 * s) in *.
  apply Rabs_le. split; nra.
Qed.

Lemma paletteBlend_near_wrap (u : nat -> vec3) (x : R) :
  inUnit (u 0%nat) -> inUnit (u 4%nat) -> inUnit (u 5%nat) ->
  0.8 <= x <= 1 ->
  Fragment.within (1 - Fragment.wrapWeight x)
                  (Fragment.paletteBlend u x) (u 0%nat).
Proof.
  intros (Hx0 & Hy0 & Hz0) (Hx4 & Hy4 & Hz4) (Hx5 & Hy5 & Hz5) Hx.
  rewrite paletteBlend_last_fifth by assumption.
  pose proof (wrapWeight_range x) as Hs.
  unfold Fragment.within, Fragment.mix3. cbn [vx vy vz].
  repeat split; apply mix_twice_near; assumption.
Qed.

(** C7: at panning_vUv.x = 0.0 every smoothstep weight of the loop and the
    wrap-around weight are 0 and the blended colour is u_color[0] exactly.
    On the last fifth of the range the blend differs from u_color[0], in
    every channel, by at most 1 minus the wrap-around weight (for colours
    with channels in [0,1] at the indices 0, 4 and 5); at 0.999 that weight
    is 0.99992525, so the blend is within 0.0001 of u_color[0]. *)
Theorem palette_wraparound (u : nat -> vec3) :
  ((forall i : nat, Fragment.paletteWeight i 0.0 = 0) /\
   Fragment.wrapWeight 0.0 = 0 /\
   Fragment.paletteBlend u 0.0 = u 0%nat) /\
  (inUnit (u 0%nat) -> inUnit (u 4%nat) -> inUnit (u 5%nat) ->
   (forall x : R,
      0.8 <= x <= 1 ->
      Fragment.within (1 - Fragment.wrapWeight x)
                      (Fragment.paletteBlend u x) (u 0%nat)) /\
   Fragment.wrapWeight 0.999 = 0.99992525 /\
   Fragment.within 0.0001 (Fragment.paletteBlend u 0.999) (u 0%nat)).
Proof.
  split.
  - split; [| split].
    + intros i. apply paletteWeight_before. pose proof (pos_INR i). lra.
    + unfold Fragment.wrapWeight. apply smoothstep_below; lra.
    + apply paletteBlend_at_zero.
  - intros H0 H4 H5. split; [| split].
    + intros x Hx. now apply paletteBlend_near_wrap.
    + exact wrapWeight_0999.
    + assert (Hx : 0.8 <= 0.999 <= 1) by lra.
      pose proof (paletteBlend_near_wrap u 0.999 H0 H4 H5 Hx)
        as (Ha & Hb & Hc).
      rewrite wrapWeight_0999 in Ha, Hb, Hc.
      unfold Fragment.within. repeat split; lra.
Qed.

Lemma u_color_inUnit :
  inUnit (u_color 0) /\ inUnit (u_color 4) /\ inUnit (u_color 5).
Proof.
  unfold inUnit, u_color, palette, rgbToFloat, vzero.
  cbn [nth vx vy vz]. repeat split; lra.
Qed.

Lemma palette_wraparound_witness :
  inUnit (u_color 0) /\ inUnit (u_color 4) /\ inUnit (u_color 5) /\
  Fragment.within 0.0001 (Fragment.paletteBlend u_color 0.999) (u_color 0).
Proof.
  destruct u_color_inUnit as (H0 & H4 & H5).
  split; [exact H0 | split; [exact H4 | split; [exact H5 |]]].
  exact (proj2 (proj2 (proj2 (palette_wraparound u_color) H0 H4 H5))).
Defined.

(** ** Environment-map coordinates *)

Lemma atan_nonpos (t : R) : t <= 0 -> atan t <= 0.
Proof.
  intros [Hlt | ->].
  - pose proof (atan_increasing t 0 Hlt) as H. rewrite atan_0 in H. lra.
  - rewrite atan_0. lra.
Qed.

Lemma atan_pos (t : R) : 0 < t -> 0 < atan t.
Proof.
  intros Ht. pose proof (atan_increasing 0 t Ht) as H.
  rewrite atan_0 in H. exact H.
Qed.

Lemma atan2_range (y x : R) : - PI < Fragment.atan2 y x <= PI.
Proof.
  pose proof PI_RGT_0 as Hpi.
  pose proof (atan_bound (y / x)) as [Hlo Hhi].
  unfold Fragment.atan2.
  destruct (Rlt_dec 0 x) as [Hx | Hx]; [lra |].
  destruct (Rlt_dec x 0) as [Hx' | Hx'].
  - assert (Hinv : / x < 0) by now apply Rinv_lt_0_compat.
    destruct (Rle_dec 0 y) as [Hy | Hy].
    + assert (Hq : y / x <= 0) by (unfold Rdiv; nra).
      pose proof (atan_nonpos _ Hq). lra.
    + assert (Hq : 0 < y / x) by (unfold Rdiv; nra).
      pose proof (atan_pos _ Hq). lra.
  - destruct (Rlt_dec 0 y); [lra |].
    destruct (Rlt_dec y 0); lra.
Qed.

(** C10: for every direction vector, directionToUV returns coordinates in
    the unit square: u is in (0,1], hence in [0,1], and v is in [0,1]. *)
Theorem directionToUV_in_unit_square (dir : vec3) :
  0 < Fragment.ux (Fragment.directionToUV dir) <= 1 /\
  0 <= Fragment.ux (Fragment.directionToUV dir) <= 1 /\
  0 <= Fragment.uy (Fragment.directionToUV dir) <= 1.
Proof.
  pose proof PI_RGT_0 as Hpi.
  assert (Hinv : 0 < / PI) by now apply Rinv_0_lt_compat.
  assert (Hinv2 : 0 < / (2.0 * PI)) by (apply Rinv_0_lt_compat; lra).
  unfold Fragment.directionToUV. cbv zeta. cbn [Fragment.ux Fragment.uy].
  pose proof (atan2_range (vx dir) (vz dir)) as [Hlo Hhi].
  pose proof (acos_bound (Fragment.clamp (vy dir) (-1.0) 1.0)) as [Hal Hau].
  set (phi := Fragment.atan2 (vx dir) (vz dir) + PI) in *.
  set (theta := acos (Fragment.clamp (vy dir) (-1.0) 1.0)) in *.
  assert (Hu : 0 < phi / (2.0 * PI) <= 1).
  { split.
    - unfold Rdiv. apply Rmult_lt_0_compat; [unfold phi; lra | exact Hinv2].
    - apply (Rmult_le_reg_r (2.0 * PI)); [lra |].
      unfold Rdiv. rewrite Rmult_assoc, Rinv_l by lra. unfold phi. lra. }
  assert (Hv : 0 <= theta / PI <= 1).
  { split.
    - unfold Rdiv. apply Rmult_le_pos; lra.
    - apply (Rmult_le_reg_r PI); [lra |].
      unfold Rdiv. rewrite Rmult_assoc, Rinv_l by lra. lra. }
  split; [exact Hu | split; [lra | exact Hv]].
Qed.

(* ================================================================= *)
(** * Part III: further properties of the code *)
(* ================================================================= *)

(** ** The pillar grid *)

Lemma flat_map_length_const {A B : Type} (f : A -> list B) (n : nat)
    (l : list A) :
  (forall a, length (f a) = n) -> length (flat_map f l) = (length l * n)%nat.
Proof.
  intros Hf. induction l as [| a l IH].
  - reflexivity.
  - cbn [flat_map length]. rewrite length_app, Hf, IH. lia.
Qed.

(** X1: initPillars creates one pillar per grid cell, rows * cols in all;
    every pillar starts with elapsedTime 0 and currentHeightFactor equal to
    its startHeightFactor, and its x and z lie between minus half the grid
    extent and half the grid extent minus one spacing. *)
Theorem initPillars_grid
    (nrows ncols : nat) (space maxH : R) (rnd : nat -> R) :
  0 <= space ->
  length (initPillars nrows ncols space maxH rnd) = (nrows * ncols)%nat /\
  Forall (fun p =>
            elapsedTime p = 0 /\
            currentHeightFactor p = startHeightFactor p /\
            - (INR ncols * space) / 2 <= x p
              <= INR ncols * space / 2 - space /\
            - (INR nrows * space) / 2 <= z p
              <= INR nrows * space / 2 - space)
         (initPillars nrows ncols space maxH rnd).
Proof.
  intros Hs. split.
  - unfold initPillars.
    rewrite (flat_map_length_const _ ncols).
    + now rewrite length_seq.
    + intros row. now rewrite length_map, length_seq.
  - apply Forall_forall. intros p Hp.
    unfold initPillars in Hp.
    apply in_flat_map in Hp. destruct Hp as (row & Hrow & Hp).
    apply in_map_iff in Hp. destruct Hp as (col & <- & Hcol).
    apply in_seq in Hrow. apply in_seq in Hcol.
    unfold initPillar.
    cbn [elapsedTime currentHeightFactor startHeightFactor x z].
    assert (Hc : INR col <= INR ncols - 1).
    { assert (H : (col + 1 <= ncols)%nat) by lia.
      apply le_INR in H. rewrite plus_INR in H. cbn [INR] in H. lra. }
    assert (Hr : INR row <= INR nrows - 1).
    { assert (H : (row + 1 <= nrows)%nat) by lia.
      apply le_INR in H. rewrite plus_INR in H. cbn [INR] in H. lra. }
    pose proof (pos_INR col). pose proof (pos_INR row).
    repeat split; nra.
Qed.

Lemma initPillars_grid_witness :
  0 <= spacing /\
  length (initPillars rows cols spacing maxHeight (fun _ => 0.5)) = 900%nat.
Proof.
  assert (Hs : 0 <= spacing) by (unfold spacing; lra).
  split; [exact Hs |].
  exact (proj1 (initPillars_grid rows cols spacing maxHeight
                  (fun _ => 0.5) Hs)).
Defined.

(** X2: with maxHeight >= 1 and draws in [0,1), every pillar initPillars
    creates has start and target height factors in [-maxHeight, -1] and an
    animationDuration in [0.1, 0.33]. *)
Theorem initPillars_heights_and_duration
    (nrows ncols : nat) (space maxH : R) (rnd : nat -> R) :
  1 <= maxH -> (forall n, 0 <= rnd n < 1) ->
  Forall (fun p =>
            - maxH <= startHeightFactor p <= -1 /\
            - maxH <= targetHeightFactor p <= -1 /\
            0.1 <= animationDuration p <= 0.33)
         (initPillars nrows ncols space maxH rnd).
Proof.
  intros Hm Hrnd. apply Forall_forall. intros p Hp.
  apply in_initPillars in Hp. destruct Hp as (row & col & ->).
  unfold initPillar.
  cbn [startHeightFactor targetHeightFactor animationDuration].
  set (k := (row * ncols + col)%nat).
  assert (H1 : 1.0 <= maxH) by lra.
  assert (H2 : 0.1 <= 0.33) by lra.
  pose proof (random_ordered _ 1.0 maxH (Hrnd (3 * k)%nat) H1).
  pose proof (random_ordered _ 1.0 maxH (Hrnd (3 * k + 1)%nat) H1).
  pose proof (random_ordered _ 0.1 0.33 (Hrnd (3 * k + 2)%nat) H2).
  repeat split; lra.
Qed.

Lemma initPillars_heights_and_duration_witness :
  1 <= maxHeight /\ (forall n : nat, 0 <= (fun _ : nat => 0.5) n < 1) /\
  Forall (fun p =>
            - maxHeight <= startHeightFactor p <= -1 /\
            - maxHeight <= targetHeightFactor p <= -1 /\
            0.1 <= animationDuration p <= 0.33)
         (initPillars rows cols spacing maxHeight (fun _ => 0.5)).
Proof.
  assert (Hm : 1 <= maxHeight) by (unfold maxHeight; lra).
  assert (Hr : forall n : nat, 0 <= (fun _ : nat => 0.5) n < 1)
    by (intros _; lra).
  split; [exact Hm | split; [exact Hr |]].
  exact (initPillars_heights_and_duration rows cols spacing maxHeight
           (fun _ => 0.5) Hm Hr).
Defined.

(** X3: for a grid with at least one row and one column, the point
    computeSceneCenter returns is the position of the last pillar of the
    grid (last row, last column), at height 0; measured from the middle of
    the pillar positions it is half a grid extent minus half a spacing away
    along each axis. *)
Theorem computeSceneCenter_is_last_pillar
    (nrows ncols : nat) (space maxH : R) (rnd : nat -> R) :
  (1 <= nrows)%nat -> (1 <= ncols)%nat ->
  let last := initPillar nrows ncols space maxH rnd (nrows - 1) (ncols - 1) in
  let first := initPillar nrows ncols space maxH rnd 0 0 in
  computeSceneCenter nrows ncols space = Vec3 (x last) 0 (z last) /\
  vx (computeSceneCenter nrows ncols space) - (x first + x last) / 2
  = (INR ncols - 1) * space / 2 /\
  vz (computeSceneCenter nrows ncols space) - (z first + z last) / 2
  = (INR nrows - 1) * space / 2.
Proof.
  intros Hr Hc last first. subst last first.
  unfold computeSceneCenter, initPillar. cbn [x z vx vz].
  rewrite !minus_INR by assumption. cbn [INR].
  split; [reflexivity | split; lra].
Qed.

Lemma computeSceneCenter_is_last_pillar_witness :
  (1 <= rows)%nat /\ (1 <= cols)%nat /\
  computeSceneCenter rows cols spacing
  = Vec3 (x (initPillar rows cols spacing maxHeight (fun _ => 0.5)
               (rows - 1) (cols - 1)))
         0
         (z (initPillar rows cols spacing maxHeight (fun _ => 0.5)
               (rows - 1) (cols - 1))).
Proof.
  assert (Hr : (1 <= rows)%nat) by (unfold rows; lia).
  assert (Hc : (1 <= cols)%nat) by (unfold cols; lia).
  split; [exact Hr | split; [exact Hc |]].
  exact (proj1 (computeSceneCenter_is_last_pillar rows cols spacing maxHeight
                  (fun _ => 0.5) Hr Hc)).
Defined.

(** ** Updating the pillars *)

Lemma updatePillar_keeps_layout (maxH now dt freq amp : R) (p : Pillar) :
  x (updatePillar maxH now dt freq amp p) = x p /\
  z (updatePillar maxH now dt freq amp p) = z p /\
  animationDuration (updatePillar maxH now dt freq amp p)
  = animationDuration p.
Proof.
  destruct (Rge_dec ((elapsedTime p + dt) / animationDuration p) 1.0)
    as [Hge | Hlt].
  - rewrite (updatePillar_arrive _ _ _ _ _ _ Hge). now cbn.
  - rewrite (updatePillar_travel _ _ _ _ _ _ Hlt). now cbn.
Qed.

Lemma stepFrame_keeps_layout (maxH : R) (f : Frame) (pillars : list Pillar) :
  length (stepFrame maxH pillars f) = length pillars /\
  map x (stepFrame maxH pillars f) = map x pillars /\
  map z (stepFrame maxH pillars f) = map z pillars /\
  map animationDuration (stepFrame maxH pillars f)
  = map animationDuration pillars.
Proof.
  unfold stepFrame, updatePillars. rewrite length_map, !map_map.
  split; [reflexivity |].
  repeat split; apply map_ext; intros p;
    apply (updatePillar_keeps_layout maxH (fTime f) (fDt f) (fFreq f)
             (fAmp f) p).
Qed.

(** X4: over any run of frames, whatever their inputs, updatePillars keeps
    the number of pillars, and every pillar's x, z and animationDuration
    stay what initPillars made them. *)
Theorem runFrames_keeps_layout
    (maxH : R) (frames : list Frame) (pillars : list Pillar) :
  length (runFrames maxH frames pillars) = length pillars /\
  map x (runFrames maxH frames pillars) = map x pillars /\
  map z (runFrames maxH frames pillars) = map z pillars /\
  map animationDuration (runFrames maxH frames pillars)
  = map animationDuration pillars.
Proof.
  unfold runFrames. revert pillars.
  induction frames as [| f frames IH]; intros pillars.
  - now cbn.
  - cbn [fold_left].
    destruct (IH (stepFrame maxH pillars f)) as (Hl & Hx & Hz & Hd).
    destruct (stepFrame_keeps_layout maxH f pillars)
      as (Hl' & Hx' & Hz' & Hd').
    rewrite Hl, Hx, Hz, Hd. now repeat split.
Qed.

(** X5: in every pillar array the program can hold, each pillar's timer
    satisfies 0 <= elapsedTime < animationDuration, and its
    currentHeightFactor is the eased interpolation from startHeightFactor to
    targetHeightFactor at the fraction elapsedTime / animationDuration. *)
Theorem reachable_eased_interpolation
    (maxH : R) (pillars : list Pillar) (p : Pillar) :
  reachable maxH pillars -> In p pillars ->
  0 <= elapsedTime p < animationDuration p /\
  currentHeightFactor p
  = startHeightFactor p
    + (targetHeightFactor p - startHeightFactor p)
      * easeInOutQuad (elapsedTime p / animationDuration p).
Proof.
  intros Hreach Hin.
  pose proof (reachable_inv _ _ Hreach) as Hall.
  rewrite Forall_forall in Hall.
  destruct (Hall p Hin) as (_ & Ht & Hc). now split.
Qed.

Lemma stepped_sample_reachable :
  reachable maxHeight
    (stepFrame maxHeight
       (initPillars rows cols spacing maxHeight (fun _ => 0.5))
       (mkFrame 1 0.1 1.0 1.0)) /\
  In (updatePillar maxHeight 1 0.1 1.0 1.0 samplePillar)
     (stepFrame maxHeight
        (initPillars rows cols spacing maxHeight (fun _ => 0.5))
        (mkFrame 1 0.1 1.0 1.0)).
Proof.
  destruct samplePillar_reachable as [Hr Hi]. split.
  - apply reach_step; [exact Hr | cbn [fDt]; lra].
  - unfold stepFrame, updatePillars. cbn [fTime fDt fFreq fAmp].
    apply in_map. exact Hi.
Qed.

Lemma reachable_eased_interpolation_witness :
  reachable maxHeight
    (stepFrame maxHeight
       (initPillars rows cols spacing maxHeight (fun _ => 0.5))
       (mkFrame 1 0.1 1.0 1.0)) /\
  In (updatePillar maxHeight 1 0.1 1.0 1.0 samplePillar)
     (stepFrame maxHeight
        (initPillars rows cols spacing maxHeight (fun _ => 0.5))
        (mkFrame 1 0.1 1.0 1.0)) /\
  0 <= elapsedTime (updatePillar maxHeight 1 0.1 1.0 1.0 samplePillar)
    < animationDuration (updatePillar maxHeight 1 0.1 1.0 1.0 samplePillar).
Proof.
  destruct stepped_sample_reachable as [Hr Hi].
  split; [exact Hr | split; [exact Hi |]].
  exact (proj1 (reachable_eased_interpolation maxHeight _ _ Hr Hi)).
Defined.

(** X6: the displayed height never overshoots: in every pillar array the
    program can hold, currentHeightFactor lies between startHeightFactor and
    targetHeightFactor. *)
Theorem reachable_no_overshoot
    (maxH : R) (pillars : list Pillar) (p : Pillar) :
  reachable maxH pillars -> In p pillars ->
  Rmin (startHeightFactor p) (targetHeightFactor p)
  <= currentHeightFactor p
  <= Rmax (startHeightFactor p) (targetHeightFactor p).
Proof.
  intros Hreach Hin.
  pose proof (reachable_inv _ _ Hreach) as Hall.
  rewrite Forall_forall in Hall.
  destruct (Hall p Hin) as (Hd & [He0 He1] & Hc).
  assert (Hfrac : 0 <= elapsedTime p / animationDuration p <= 1).
  { split; [now apply fraction_nonneg |].
    destruct (Rle_dec (elapsedTime p / animationDuration p) 1)
      as [Hle | Hgt]; [exact Hle |].
    exfalso. assert (Hge : elapsedTime p / animationDuration p >= 1.0) by lra.
    apply fraction_ge_1 in Hge; lra. }
  pose proof (easeInOutQuad_unit _ Hfrac) as [Hl Hu].
  rewrite Hc.
  set (e := easeInOutQuad (elapsedTime p / animationDuration p)) in *.
  unfold Rmin, Rmax.
  destruct (Rle_dec (startHeightFactor p) (targetHeightFactor p));
    split; nra.
Qed.

Lemma reachable_no_overshoot_witness :
  reachable maxHeight
    (stepFrame maxHeight
       (initPillars rows cols spacing maxHeight (fun _ => 0.5))
       (mkFrame 1 0.1 1.0 1.0)) /\
  In (updatePillar maxHeight 1 0.1 1.0 1.0 samplePillar)
     (stepFrame maxHeight
        (initPillars rows cols spacing maxHeight (fun _ => 0.5))
        (mkFrame 1 0.1 1.0 1.0)) /\
  Rmin (startHeightFactor (updatePillar maxHeight 1 0.1 1.0 1.0 samplePillar))
       (targetHeightFactor (updatePillar maxHeight 1 0.1 1.0 1.0 samplePillar))
  <= currentHeightFactor (updatePillar maxHeight 1 0.1 1.0 1.0 samplePillar)
  <= Rmax
       (startHeightFactor (updatePillar maxHeight 1 0.1 1.0 1.0 samplePillar))
       (targetHeightFactor (updatePillar maxHeight 1 0.1 1.0 1.0 samplePillar)).
Proof.
  destruct stepped_sample_reachable as [Hr Hi].
  split; [exact Hr | split; [exact Hi |]].
  exact (reachable_no_overshoot maxHeight _ _ Hr Hi).
Defined.

(** X7: for an ampMultiplier in [0, 1] and any frequency, time and position,
    the average of the three waves lies in [0.15, 0.85]; so a retarget never
    sets a target above -0.15 * maxHeight or below -0.85 * maxHeight. *)
Theorem newTarget_inner_band
    (maxH : R) (p : Pillar) (now freqMultiplier ampMultiplier : R) :
  0 <= maxH -> 0 <= ampMultiplier <= 1 ->
  0.15 <= combined p now freqMultiplier ampMultiplier <= 0.85 /\
  - 0.85 * maxH <= newTarget maxH p now freqMultiplier ampMultiplier
  <= - 0.15 * maxH.
Proof.
  intros Hm Ha.
  assert (Hc : 0.15 <= combined p now freqMultiplier ampMultiplier <= 0.85).
  { unfold combined.
    pose proof (wave1_range p now).
    pose proof (wave2_range p now freqMultiplier).
    pose proof (wave3_range p now ampMultiplier Ha). lra. }
  split; [exact Hc |]. unfold newTarget. nra.
Qed.

Lemma newTarget_inner_band_witness :
  0 <= maxHeight /\ 0 <= 1.0 <= 1 /\
  - 0.85 * maxHeight <= newTarget maxHeight samplePillar 2 1.0 1.0
  <= - 0.15 * maxHeight.
Proof.
  assert (Hm : 0 <= maxHeight) by (unfold maxHeight; lra).
  assert (Ha : 0 <= 1.0 <= 1) by lra.
  split; [exact Hm | split; [exact Ha |]].
  exact (proj2 (newTarget_inner_band maxHeight samplePillar 2 1.0 1.0 Hm Ha)).
Defined.

(** X8: while a transition is under way, two updates in a row act as one
    update with the sum of the time steps: if the timer stays below
    animationDuration after dt1 + dt2, updating by dt1 and then by dt2 gives
    the pillar that one update by dt1 + dt2 gives, whatever the clock
    readings and multipliers of the calls. *)
Theorem updatePillar_steps_add
    (maxH now1 now2 now freq1 freq2 freq amp1 amp2 amp dt1 dt2 : R)
    (p : Pillar) :
  0 < animationDuration p -> 0 <= dt2 ->
  elapsedTime p + dt1 + dt2 < animationDuration p ->
  updatePillar maxH now2 dt2 freq2 amp2
    (updatePillar maxH now1 dt1 freq1 amp1 p)
  = updatePillar maxH now (dt1 + dt2) freq amp p.
Proof.
  intros Hd Hdt2 Hlt.
  assert (H1 : ~ (elapsedTime p + dt1) / animationDuration p >= 1.0).
  { intros H. apply fraction_ge_1 in H; lra. }
  assert (H12 : ~ (elapsedTime p + (dt1 + dt2)) / animationDuration p >= 1.0).
  { intros H. apply fraction_ge_1 in H; lra. }
  rewrite (updatePillar_travel maxH now1 dt1 freq1 amp1 p H1).
  rewrite (updatePillar_travel maxH now (dt1 + dt2) freq amp p H12).
  rewrite updatePillar_travel.
  - cbn [x z startHeightFactor targetHeightFactor elapsedTime
         animationDuration].
    replace (elapsedTime p + dt1 + dt2) with (elapsedTime p + (dt1 + dt2))
      by ring.
    reflexivity.
  - cbn [elapsedTime animationDuration].
    intros H. apply fraction_ge_1 in H; lra.
Qed.

Lemma updatePillar_steps_add_witness :
  0 < animationDuration samplePillar /\ 0 <= 0.05 /\
  elapsedTime samplePillar + 0.1 + 0.05 < animationDuration samplePillar /\
  updatePillar maxHeight 2 0.05 1.0 1.0
    (updatePillar maxHeight 1 0.1 3.0 0.1 samplePillar)
  = updatePillar maxHeight 7 (0.1 + 0.05) 0.5 0.5 samplePillar.
Proof.
  assert (Hd : 0 < animationDuration samplePillar)
    by (rewrite samplePillar_value; cbn [animationDuration]; lra).
  assert (Hdt : 0 <= 0.05) by lra.
  assert (Hlt : elapsedTime samplePillar + 0.1 + 0.05
                < animationDuration samplePillar)
    by (rewrite samplePillar_value; cbn [elapsedTime animationDuration]; lra).
  split; [exact Hd | split; [exact Hdt | split; [exact Hlt |]]].
  exact (updatePillar_steps_add maxHeight 1 2 7 3.0 1.0 0.5 0.1 1.0 0.5
           0.1 0.05 samplePillar Hd Hdt Hlt).
Defined.

(** X9: easeInOutQuad is point-symmetric about (0.5, 0.5): for every t,
    easeInOutQuad(1 - t) = 1 - easeInOutQuad(t). *)
Theorem easeInOutQuad_symmetric (t : R) :
  easeInOutQuad (1 - t) = 1 - easeInOutQuad t.
Proof.
  destruct (Rlt_dec t 0.5) as [Hlt | Hge].
  - rewrite (easeInOutQuad_low t) by assumption.
    rewrite easeInOutQuad_high by lra. nra.
  - destruct (Req_dec t 0.5) as [-> | Hne].
    + replace (1 - 0.5) with 0.5 by lra.
      rewrite easeInOutQuad_high by lra. lra.
    + rewrite (easeInOutQuad_high t) by lra.
      rewrite easeInOutQuad_low by lra. nra.
Qed.

(** ** Inputs of a frame *)

Lemma mapRange_between (value stop1 start2 stop2 : R) :
  0 < stop1 -> 0 <= value <= stop1 -> start2 <= stop2 ->
  start2 <= mapRange value 0 stop1 start2 stop2 <= stop2.
Proof.
  intros Hs [Hv0 Hv1] H2. unfold mapRange. rewrite !Rminus_0_r.
  assert (Hq : 0 <= value / stop1 <= 1).
  { split; [apply fraction_nonneg; lra |].
    apply (Rmult_le_reg_r stop1); [assumption |].
    unfold Rdiv. rewrite Rmult_assoc, Rinv_l by lra. lra. }
  set (q := value / stop1) in *. split; nra.
Qed.

(** The frame inputs of [draw] are in range. *)
Lemma drawFrame_frameOk (inp : DrawInput) :
  drawInputOk inp -> frameOk (drawFrame inp).
Proof.
  intros (Hdt & Hw & Hx & Hh & Hy).
  unfold frameOk, drawFrame. cbn [fDt fFreq fAmp].
  split; [| split].
  - unfold Rdiv. nra.
  - apply mapRange_between; [assumption | assumption | lra].
  - apply mapRange_between; [assumption | assumption | lra].
Qed.

(** X10: when the pointer is inside the canvas and deltaTime is not
    negative, the arguments draw passes to updatePillars are a time step
    dt >= 0, a freqMultiplier in [0.1, 3.0] and an ampMultiplier in
    [0.1, 1.0]; the left and top edges of the canvas give the multipliers
    0.1, the right edge gives 3.0 and the bottom edge 1.0. *)
Theorem drawFrame_in_range (inp : DrawInput) :
  drawInputOk inp ->
  frameOk (drawFrame inp) /\
  (mouseX inp = 0 -> fFreq (drawFrame inp) = 0.1) /\
  (mouseX inp = width inp -> fFreq (drawFrame inp) = 3.0) /\
  (mouseY inp = 0 -> fAmp (drawFrame inp) = 0.1) /\
  (mouseY inp = height inp -> fAmp (drawFrame inp) = 1.0).
Proof.
  intros Hok. split; [now apply drawFrame_frameOk |].
  destruct Hok as (_ & Hw & _ & Hh & _).
  unfold drawFrame, mapRange. cbn [fFreq fAmp]. rewrite !Rminus_0_r.
  repeat split; intros ->.
  - unfold Rdiv. lra.
  - unfold Rdiv. rewrite Rinv_r by lra. lra.
  - unfold Rdiv. lra.
  - unfold Rdiv. rewrite Rinv_r by lra. lra.
Qed.

Lemma sampleInput_ok : drawInputOk sampleInput.
Proof.
  unfold drawInputOk, sampleInput.
  cbn [deltaTime width height mouseX mouseY]. repeat split; lra.
Qed.

Lemma drawFrame_in_range_witness :
  drawInputOk sampleInput /\ frameOk (drawFrame sampleInput).
Proof.
  split; [exact sampleInput_ok |].
  exact (proj1 (drawFrame_in_range sampleInput sampleInput_ok)).
Defined.

(** ** computeNormal *)

Lemma edgeCrossLength_sqr (p1 p2 p3 : vec3) :
  edgeCrossLength p1 p2 p3 * edgeCrossLength p1 p2 p3
  = Fragment.dot (edgeCross p1 p2 p3) (edgeCross p1 p2 p3).
Proof.
  unfold edgeCrossLength. cbv zeta. apply sqrt_sqrt.
  apply (dot_self_nonneg (edgeCross p1 p2 p3)).
Qed.

(** X11: whenever the cross product of the two edges is not zero,
    computeNormal returns a vector of length 1, so the normalize the shaders
    apply to the normal leaves it as it is. *)
Theorem computeNormal_unit_length (p1 p2 p3 : vec3) :
  edgeCrossLength p1 p2 p3 > 0 ->
  Fragment.dot (computeNormal p1 p2 p3) (computeNormal p1 p2 p3) = 1 /\
  Fragment.N (computeNormal p1 p2 p3) = computeNormal p1 p2 p3.
Proof.
  intros Hlen.
  assert (Hone : Fragment.dot (computeNormal p1 p2 p3)
                              (computeNormal p1 p2 p3) = 1).
  { rewrite computeNormal_edgeCross.
    destruct (Rgt_dec (edgeCrossLength p1 p2 p3) 0.0) as [_ | Hn]; [| lra].
    pose proof (edgeCrossLength_sqr p1 p2 p3) as Hsq.
    unfold Fragment.dot in *. cbn [vx vy vz].
    set (l := edgeCrossLength p1 p2 p3) in *.
    set (n := edgeCross p1 p2 p3) in *.
    replace (vx n / l * (vx n / l) + vy n / l * (vy n / l)
             + vz n / l * (vz n / l))
      with ((vx n * vx n + vy n * vy n + vz n * vz n) / (l * l))
      by (field; lra).
    rewrite <- Hsq. field. lra. }
  split; [exact Hone |].
  unfold Fragment.N, Fragment.normalize, Fragment.length3.
  rewrite Hone, sqrt_1.
  destruct (computeNormal p1 p2 p3) as [a b c]. cbn [vx vy vz].
  apply vec3_eq; field.
Qed.

Lemma sampleTriangle_length :
  edgeCrossLength vzero (Vec3 1 0 0) (Vec3 0 1 0) = 1.
Proof.
  unfold edgeCrossLength, edgeCross, vzero. cbn [vx vy vz].
  replace ((0 - 0) * (0 - 0) - (0 - 0) * (1 - 0)) with 0 by ring.
  replace ((0 - 0) * (0 - 0) - (1 - 0) * (0 - 0)) with 0 by ring.
  replace ((1 - 0) * (1 - 0) - (0 - 0) * (0 - 0)) with 1 by ring.
  replace (0 * 0 + 0 * 0 + 1 * 1) with 1 by ring. apply sqrt_1.
Qed.

Lemma sampleTriangle_positive :
  edgeCrossLength vzero (Vec3 1 0 0) (Vec3 0 1 0) > 0.
Proof. rewrite sampleTriangle_length. lra. Qed.

Lemma computeNormal_unit_length_witness :
  edgeCrossLength vzero (Vec3 1 0 0) (Vec3 0 1 0) > 0 /\
  Fragment.dot (computeNormal vzero (Vec3 1 0 0) (Vec3 0 1 0))
               (computeNormal vzero (Vec3 1 0 0) (Vec3 0 1 0)) = 1.
Proof.
  split; [exact sampleTriangle_positive |].
  exact (proj1 (computeNormal_unit_length _ _ _ sampleTriangle_positive)).
Defined.

(** X12: the vector computeNormal returns is perpendicular to both edges
    p2 - p1 and p3 - p1, for all points. *)
Theorem computeNormal_perpendicular (p1 p2 p3 : vec3) :
  Fragment.dot (computeNormal p1 p2 p3) (Fragment.vsub p2 p1) = 0 /\
  Fragment.dot (computeNormal p1 p2 p3) (Fragment.vsub p3 p1) = 0.
Proof.
  rewrite computeNormal_edgeCross.
  destruct (Rgt_dec (edgeCrossLength p1 p2 p3) 0.0) as [_ | _];
    unfold Fragment.dot, Fragment.vsub, edgeCross; cbn [vx vy vz];
    unfold Rdiv; split; ring.
Qed.

(** X13: exchanging the second and third point, that is reversing the
    winding of the triangle, negates the vector computeNormal returns. *)
Theorem computeNormal_winding (p1 p2 p3 : vec3) :
  computeNormal p1 p3 p2
  = Vec3 (- vx (computeNormal p1 p2 p3))
         (- vy (computeNormal p1 p2 p3))
         (- vz (computeNormal p1 p2 p3)).
Proof.
  assert (Hc : edgeCross p1 p3 p2
               = Vec3 (- vx (edgeCross p1 p2 p3)) (- vy (edgeCross p1 p2 p3))
                      (- vz (edgeCross p1 p2 p3))).
  { unfold edgeCross. cbn [vx vy vz]. apply vec3_eq; ring. }
  assert (Hl : edgeCrossLength p1 p3 p2 = edgeCrossLength p1 p2 p3).
  { unfold edgeCrossLength. cbv zeta. rewrite Hc. cbn [vx vy vz].
    f_equal. ring. }
  rewrite !computeNormal_edgeCross, Hl, Hc.
  destruct (Rgt_dec (edgeCrossLength p1 p2 p3) 0.0) as [_ | _];
    cbn [vx vy vz]; apply vec3_eq; unfold Rdiv; ring.
Qed.

(** Rotated and translated points have the rotated cross product. *)
Lemma edgeCross_rotateTranslate (angle xo yo zo : R) (p1 p2 p3 : vec3) :
  edgeCross (rotateTranslate (cos angle) (sin angle) xo yo zo p1)
            (rotateTranslate (cos angle) (sin angle) xo yo zo p2)
            (rotateTranslate (cos angle) (sin angle) xo yo zo p3)
  = rotateY angle (edgeCross p1 p2 p3).
Proof.
  pose proof (sin2_cos2 angle) as Hsc. unfold Rsqr in Hsc.
  unfold rotateY, rotateTranslate, edgeCross. cbn [vx vy vz].
  set (c := cos angle) in *. set (s := sin angle) in *.
  apply vec3_eq; try ring.
  destruct p1 as [a1 b1 c1], p2 as [a2 b2 c2], p3 as [a3 b3 c3].
  cbn [vx vy vz].
  replace ((a2 * s + c2 * c + zo - (a1 * s + c1 * c + zo))
           * (a3 * c - c3 * s + xo - (a1 * c - c1 * s + xo))
           - (a2 * c - c2 * s + xo - (a1 * c - c1 * s + xo))
             * (a3 * s + c3 * c + zo - (a1 * s + c1 * c + zo)))
    with (((c2 - c1) * (a3 - a1) - (a2 - a1) * (c3 - c1))
          * (s * s + c * c)) by ring.
  rewrite Hsc. ring.
Qed.

Lemma rotateY_length (angle : R) (n : vec3) :
  Fragment.dot (rotateY angle n) (rotateY angle n) = Fragment.dot n n.
Proof.
  pose proof (sin2_cos2 angle) as Hsc. unfold Rsqr in Hsc.
  unfold rotateY, rotateTranslate, Fragment.dot. cbn [vx vy vz].
  set (c := cos angle) in *. set (s := sin angle) in *.
  replace ((vx n * c - vz n * s + 0) * (vx n * c - vz n * s + 0)
           + (vy n + 0) * (vy n + 0)
           + (vx n * s + vz n * c + 0) * (vx n * s + vz n * c + 0))
    with ((vx n * vx n + vz n * vz n) * (s * s + c * c) + vy n * vy n)
    by ring.
  rewrite Hsc. ring.
Qed.

(** Normals co-rotate with the points. *)
Lemma computeNormal_corotates
    (angle xo yo zo : R) (p1 p2 p3 : vec3) :
  computeNormal (rotateTranslate (cos angle) (sin angle) xo yo zo p1)
                (rotateTranslate (cos angle) (sin angle) xo yo zo p2)
                (rotateTranslate (cos angle) (sin angle) xo yo zo p3)
  = rotateY angle (computeNormal p1 p2 p3).
Proof.
  rewrite !computeNormal_edgeCross.
  assert (Hl : edgeCrossLength
                 (rotateTranslate (cos angle) (sin angle) xo yo zo p1)
                 (rotateTranslate (cos angle) (sin angle) xo yo zo p2)
                 (rotateTranslate (cos angle) (sin angle) xo yo zo p3)
               = edgeCrossLength p1 p2 p3).
  { unfold edgeCrossLength. cbv zeta. rewrite edgeCross_rotateTranslate.
    f_equal. apply (rotateY_length angle (edgeCross p1 p2 p3)). }
  rewrite Hl, edgeCross_rotateTranslate.
  destruct (Rgt_dec (edgeCrossLength p1 p2 p3) 0.0) as [_ | _];
    [| reflexivity].
  unfold rotateY, rotateTranslate. cbn [vx vy vz].
  apply vec3_eq; unfold Rdiv; ring.
Qed.

(** X14: the corner transformation of createCube carries face normals
    along: the normal of three rotated and translated points is the normal
    of the original points rotated by the same angle, whatever the offsets;
    in particular a pure translation leaves the normal unchanged. *)
Theorem computeNormal_rotateTranslate
    (angle xo yo zo : R) (p1 p2 p3 : vec3) :
  computeNormal (rotateTranslate (cos angle) (sin angle) xo yo zo p1)
                (rotateTranslate (cos angle) (sin angle) xo yo zo p2)
                (rotateTranslate (cos angle) (sin angle) xo yo zo p3)
  = rotateY angle (computeNormal p1 p2 p3) /\
  computeNormal (rotateTranslate 1 0 xo yo zo p1)
                (rotateTranslate 1 0 xo yo zo p2)
                (rotateTranslate 1 0 xo yo zo p3)
  = computeNormal p1 p2 p3.
Proof.
  split; [apply computeNormal_corotates |].
  pose proof (computeNormal_corotates 0 xo yo zo p1 p2 p3) as H0.
  rewrite cos_0, sin_0 in H0. rewrite H0.
  unfold rotateY. rewrite cos_0, sin_0.
  apply rotateTranslate_identity.
Qed.

(** ** createCube for every input *)

Lemma createCube_faces (xo yo zo hf angle : R) :
  createCube xo yo zo hf angle =
  let cs := map (rotateTranslate (cos angle) (sin angle) xo yo zo)
                (cubeCorners (1.0 / 2) hf) in
  makeFace cs 0 1 2 3
    (computeNormal (corner cs 0) (corner cs 1) (corner cs 2)) ++
  makeFace cs 4 5 6 7
    (computeNormal (corner cs 4) (corner cs 5) (corner cs 6)) ++
  makeFace cs 0 1 5 4
    (computeNormal (corner cs 0) (corner cs 1) (corner cs 5)) ++
  makeFace cs 2 3 7 6
    (computeNormal (corner cs 2) (corner cs 3) (corner cs 7)) ++
  makeFace cs 0 3 7 4
    (computeNormal (corner cs 0) (corner cs 3) (corner cs 7)) ++
  makeFace cs 1 2 6 5
    (computeNormal (corner cs 1) (corner cs 2) (corner cs 6)).
Proof.
  unfold createCube, faces. cbv zeta. cbn [flat_map].
  rewrite app_nil_r. reflexivity.
Qed.

(** The six face normals are the normals of the unrotated cube, rotated. *)
Lemma createCube_faceNormals (xo yo zo hf angle : R) :
  faceNormals 6 (createCube xo yo zo hf angle) =
  let cs := cubeCorners (1.0 / 2) hf in
  map (rotateY angle)
    [ computeNormal (corner cs 0) (corner cs 1) (corner cs 2);
      computeNormal (corner cs 4) (corner cs 5) (corner cs 6);
      computeNormal (corner cs 0) (corner cs 1) (corner cs 5);
      computeNormal (corner cs 2) (corner cs 3) (corner cs 7);
      computeNormal (corner cs 0) (corner cs 3) (corner cs 7);
      computeNormal (corner cs 1) (corner cs 2) (corner cs 6) ].
Proof.
  rewrite createCube_faces. cbv zeta.
  unfold makeFace, cubeCorners, corner.
  cbn [map nth app faceNormals skipn hd normalOf vertexOf nx ny nz].
  rewrite !computeNormal_corotates.
  repeat (f_equal; [now destruct (rotateY angle _) |]).
  reflexivity.
Qed.

Lemma computeNormal_scaled (l : R) (p1 p2 p3 n : vec3) :
  0 < l ->
  edgeCross p1 p2 p3 = Vec3 (l * vx n) (l * vy n) (l * vz n) ->
  vx n * vx n + vy n * vy n + vz n * vz n = 1 ->
  computeNormal p1 p2 p3 = n.
Proof.
  intros Hl Hc Hn. rewrite computeNormal_edgeCross.
  assert (Hlen : edgeCrossLength p1 p2 p3 = l).
  { unfold edgeCrossLength. cbv zeta. rewrite Hc. cbn [vx vy vz].
    replace (l * vx n * (l * vx n) + l * vy n * (l * vy n)
             + l * vz n * (l * vz n))
      with (l * l * (vx n * vx n + vy n * vy n + vz n * vz n)) by ring.
    rewrite Hn, Rmult_1_r. apply sqrt_square. lra. }
  rewrite Hlen, Hc.
  destruct (Rgt_dec l 0.0) as [_ | Hno]; [| lra].
  destruct n as [a b c]. cbn [vx vy vz]. apply vec3_eq; field; lra.
Qed.

Lemma computeNormal_flat (p1 p2 p3 : vec3) :
  edgeCross p1 p2 p3 = vzero -> computeNormal p1 p2 p3 = vzero.
Proof.
  intros Hc. rewrite computeNormal_edgeCross.
  assert (Hlen : edgeCrossLength p1 p2 p3 = 0).
  { unfold edgeCrossLength. cbv zeta. rewrite Hc. unfold vzero.
    cbn [vx vy vz]. replace (0 * 0 + 0 * 0 + 0 * 0) with 0 by ring.
    apply sqrt_0. }
  rewrite Hlen, Hc. destruct (Rgt_dec 0 0.0) as [H | _]; [lra | reflexivity].
Qed.

Ltac cube_cross :=
  unfold edgeCross, corner, cubeCorners; cbn [nth vx vy vz];
  apply vec3_eq; nra.

(** Top and bottom of the unrotated cube, for every height factor. *)
Lemma cubeCorners_normals_y (hf : R) :
  let cs := cubeCorners (1.0 / 2) hf in
  computeNormal (corner cs 0) (corner cs 1) (corner cs 5) = Vec3 0 (-1) 0 /\
  computeNormal (corner cs 2) (corner cs 3) (corner cs 7) = Vec3 0 1 0.
Proof.
  intro cs. subst cs. split.
  - apply (computeNormal_scaled 1); [lra | cube_cross | cbn [vx vy vz]; lra].
  - apply (computeNormal_scaled 1); [lra | cube_cross | cbn [vx vy vz]; lra].
Qed.

(** The four sides of the unrotated cube, by the sign of heightFactor + 1. *)
Lemma cubeCorners_normals_above (hf : R) :
  -1 < hf ->
  let cs := cubeCorners (1.0 / 2) hf in
  computeNormal (corner cs 0) (corner cs 1) (corner cs 2) = Vec3 0 0 1 /\
  computeNormal (corner cs 4) (corner cs 5) (corner cs 6) = Vec3 0 0 1 /\
  computeNormal (corner cs 0) (corner cs 3) (corner cs 7) = Vec3 1 0 0 /\
  computeNormal (corner cs 1) (corner cs 2) (corner cs 6) = Vec3 1 0 0.
Proof.
  intros Hhf cs. subst cs.
  repeat split;
    (apply (computeNormal_scaled ((hf + 1) / 2));
     [lra | cube_cross | cbn [vx vy vz]; lra]).
Qed.

Lemma cubeCorners_normals_below (hf : R) :
  hf < -1 ->
  let cs := cubeCorners (1.0 / 2) hf in
  computeNormal (corner cs 0) (corner cs 1) (corner cs 2) = Vec3 0 0 (-1) /\
  computeNormal (corner cs 4) (corner cs 5) (corner cs 6) = Vec3 0 0 (-1) /\
  computeNormal (corner cs 0) (corner cs 3) (corner cs 7) = Vec3 (-1) 0 0 /\
  computeNormal (corner cs 1) (corner cs 2) (corner cs 6) = Vec3 (-1) 0 0.
Proof.
  intros Hhf cs. subst cs.
  repeat split;
    (apply (computeNormal_scaled (- (hf + 1) / 2));
     [lra | cube_cross | cbn [vx vy vz]; lra]).
Qed.

Lemma cubeCorners_normals_flat :
  let cs := cubeCorners (1.0 / 2) (-1) in
  computeNormal (corner cs 0) (corner cs 1) (corner cs 2) = vzero /\
  computeNormal (corner cs 4) (corner cs 5) (corner cs 6) = vzero /\
  computeNormal (corner cs 0) (corner cs 3) (corner cs 7) = vzero /\
  computeNormal (corner cs 1) (corner cs 2) (corner cs 6) = vzero.
Proof.
  intro cs. subst cs.
  repeat split; (apply computeNormal_flat; unfold vzero; cube_cross).
Qed.

Lemma rotateY_axes (angle : R) :
  rotateY angle (Vec3 0 0 1) = Vec3 (- sin angle) 0 (cos angle) /\
  rotateY angle (Vec3 0 0 (-1)) = Vec3 (sin angle) 0 (- cos angle) /\
  rotateY angle (Vec3 1 0 0) = Vec3 (cos angle) 0 (sin angle) /\
  rotateY angle (Vec3 (-1) 0 0) = Vec3 (- cos angle) 0 (- sin angle) /\
  rotateY angle (Vec3 0 1 0) = Vec3 0 1 0 /\
  rotateY angle (Vec3 0 (-1) 0) = Vec3 0 (-1) 0 /\
  rotateY angle vzero = vzero.
Proof.
  unfold rotateY, rotateTranslate, vzero. cbn [vx vy vz].
  repeat split; apply vec3_eq; ring.
Qed.

(** X15: for every offset and angle and every heightFactor above -1, the
    six face normals of createCube, in face-table order, are
    (-sin a, 0, cos a) twice, (0,-1,0), (0,1,0) and (cos a, 0, sin a) twice:
    each pair of opposite side faces carries one and the same normal. *)
Theorem createCube_normals_above (xo yo zo hf angle : R) :
  -1 < hf ->
  faceNormals 6 (createCube xo yo zo hf angle)
  = [ Vec3 (- sin angle) 0 (cos angle);
      Vec3 (- sin angle) 0 (cos angle);
      Vec3 0 (-1) 0;
      Vec3 0 1 0;
      Vec3 (cos angle) 0 (sin angle);
      Vec3 (cos angle) 0 (sin angle) ].
Proof.
  intros Hhf. rewrite createCube_faceNormals. cbv zeta.
  destruct (cubeCorners_normals_above hf Hhf) as (H0 & H1 & H4 & H5).
  destruct (cubeCorners_normals_y hf) as (H2 & H3).
  cbv zeta in H0, H1, H2, H3, H4, H5.
  rewrite H0, H1, H2, H3, H4, H5. cbn [map].
  destruct (rotateY_axes angle) as (R1 & _ & R3 & _ & R5 & R6 & _).
  now rewrite R1, R3, R5, R6.
Qed.

Lemma createCube_normals_above_witness :
  -1 < -0.5 /\
  faceNormals 6 (createCube 3 0 (-2) (-0.5) 1)
  = [ Vec3 (- sin 1) 0 (cos 1);
      Vec3 (- sin 1) 0 (cos 1);
      Vec3 0 (-1) 0;
      Vec3 0 1 0;
      Vec3 (cos 1) 0 (sin 1);
      Vec3 (cos 1) 0 (sin 1) ].
Proof.
  assert (H : -1 < -0.5) by lra.
  split; [exact H |].
  exact (createCube_normals_above 3 0 (-2) (-0.5) 1 H).
Defined.

(** X16: for every offset and angle and every heightFactor below -1 (a
    pillar taller than the unit cube, the usual case in the sketch), the six
    face normals of createCube are (sin a, 0, -cos a) twice, (0,-1,0),
    (0,1,0) and (-cos a, 0, -sin a) twice. *)
Theorem createCube_normals_below (xo yo zo hf angle : R) :
  hf < -1 ->
  faceNormals 6 (createCube xo yo zo hf angle)
  = [ Vec3 (sin angle) 0 (- cos angle);
      Vec3 (sin angle) 0 (- cos angle);
      Vec3 0 (-1) 0;
      Vec3 0 1 0;
      Vec3 (- cos angle) 0 (- sin angle);
      Vec3 (- cos angle) 0 (- sin angle) ].
Proof.
  intros Hhf. rewrite createCube_faceNormals. cbv zeta.
  destruct (cubeCorners_normals_below hf Hhf) as (H0 & H1 & H4 & H5).
  destruct (cubeCorners_normals_y hf) as (H2 & H3).
  cbv zeta in H0, H1, H2, H3, H4, H5.
  rewrite H0, H1, H2, H3, H4, H5. cbn [map].
  destruct (rotateY_axes angle) as (_ & R2 & _ & R4 & R5 & R6 & _).
  now rewrite R2, R4, R5, R6.
Qed.

Lemma createCube_normals_below_witness :
  -13 < -1 /\
  faceNormals 6 (createCube (-15) 0 (-15) (-13) 2)
  = [ Vec3 (sin 2) 0 (- cos 2);
      Vec3 (sin 2) 0 (- cos 2);
      Vec3 0 (-1) 0;
      Vec3 0 1 0;
      Vec3 (- cos 2) 0 (- sin 2);
      Vec3 (- cos 2) 0 (- sin 2) ].
Proof.
  assert (H : -13 < -1) by lra.
  split; [exact H |].
  exact (createCube_normals_below (-15) 0 (-15) (-13) 2 H).
Defined.

(** X17: at heightFactor -1 the top corners coincide with the bottom
    corners; the four side faces are degenerate and createCube gives them the
    zero vector as normal (the guard of computeNormal), while the two
    horizontal faces keep (0,-1,0) and (0,1,0). *)
Theorem createCube_normals_flat (xo yo zo angle : R) :
  faceNormals 6 (createCube xo yo zo (-1) angle)
  = [ vzero; vzero; Vec3 0 (-1) 0; Vec3 0 1 0; vzero; vzero ].
Proof.
  rewrite createCube_faceNormals. cbv zeta.
  destruct cubeCorners_normals_flat as (H0 & H1 & H4 & H5).
  destruct (cubeCorners_normals_y (-1)) as (H2 & H3).
  cbv zeta in H0, H1, H2, H3, H4, H5.
  rewrite H0, H1, H2, H3, H4, H5. cbn [map].
  destruct (rotateY_axes angle) as (_ & _ & _ & _ & R5 & R6 & R7).
  now rewrite R5, R6, R7.
Qed.

Lemma position_vertexOf (c n : vec3) : position (vertexOf c n) = c.
Proof. now destruct c. Qed.

Lemma normalOf_vertexOf (c n : vec3) : normalOf (vertexOf c n) = n.
Proof. now destruct n. Qed.

Lemma createCube_length (xo yo zo hf angle : R) :
  length (createCube xo yo zo hf angle) = 36%nat.
Proof. rewrite createCube_faces. reflexivity. Qed.

Lemma makeFace_normals (cs : list vec3) (v1 v2 v3 v4 : nat) (n : vec3) :
  map normalOf (makeFace cs v1 v2 v3 v4 n) = repeat n 6.
Proof.
  unfold makeFace. cbn [map repeat]. now rewrite !normalOf_vertexOf.
Qed.

(** X18: for every input createCube returns exactly 36 vertex records, and
    the six records of each face all carry that face's normal (flat
    shading): the list of the 36 normals is each face normal repeated six
    times, in face order. *)
Theorem createCube_flat_shading (xo yo zo hf angle : R) :
  length (createCube xo yo zo hf angle) = 36%nat /\
  length (faceNormals 6 (createCube xo yo zo hf angle)) = 6%nat /\
  map normalOf (createCube xo yo zo hf angle)
  = flat_map (fun n => repeat n 6)
             (faceNormals 6 (createCube xo yo zo hf angle)).
Proof.
  split; [apply createCube_length |].
  rewrite createCube_faces. cbv zeta.
  split; [reflexivity |].
  rewrite !map_app, !makeFace_normals.
  unfold makeFace.
  cbn [faceNormals app hd skipn flat_map].
  rewrite !normalOf_vertexOf, app_nil_r. reflexivity.
Qed.

Lemma rotateTranslate_position (angle xo yo zo : R) (c : vec3) :
  vy (rotateTranslate (cos angle) (sin angle) xo yo zo c) = vy c + yo /\
  (vx (rotateTranslate (cos angle) (sin angle) xo yo zo c) - xo)
  * (vx (rotateTranslate (cos angle) (sin angle) xo yo zo c) - xo)
  + (vz (rotateTranslate (cos angle) (sin angle) xo yo zo c) - zo)
    * (vz (rotateTranslate (cos angle) (sin angle) xo yo zo c) - zo)
  = vx c * vx c + vz c * vz c.
Proof.
  pose proof (sin2_cos2 angle) as Hsc. unfold Rsqr in Hsc.
  unfold rotateTranslate. cbn [vx vy vz]. split; [reflexivity |].
  set (c' := cos angle) in *. set (s := sin angle) in *.
  replace ((vx c * c' - vz c * s + xo - xo) * (vx c * c' - vz c * s + xo - xo)
           + (vx c * s + vz c * c' + zo - zo)
             * (vx c * s + vz c * c' + zo - zo))
    with ((vx c * vx c + vz c * vz c) * (s * s + c' * c')) by ring.
  rewrite Hsc. ring.
Qed.

Lemma makeFace_positions (cs : list vec3) (v1 v2 v3 v4 : nat) (n : vec3) :
  (v1 < length cs)%nat -> (v2 < length cs)%nat ->
  (v3 < length cs)%nat -> (v4 < length cs)%nat ->
  Forall (fun v => In (position v) cs) (makeFace cs v1 v2 v3 v4 n).
Proof.
  intros H1 H2 H3 H4. unfold makeFace, corner.
  repeat (apply Forall_cons; [rewrite position_vertexOf; now apply nth_In |]).
  apply Forall_nil.
Qed.

Lemma createCube_positions_in_corners (xo yo zo hf angle : R) :
  Forall (fun v =>
            In (position v)
               (map (rotateTranslate (cos angle) (sin angle) xo yo zo)
                    (cubeCorners (1.0 / 2) hf)))
         (createCube xo yo zo hf angle).
Proof.
  rewrite createCube_faces. cbv zeta.
  repeat (apply Forall_app; split);
    apply makeFace_positions; cbn [length map cubeCorners]; lia.
Qed.

(** X19: every vertex createCube emits is a corner of the pillar: its
    height is either the bottom yOffset - 0.5 or the top
    yOffset + 0.5 * heightFactor, and whatever the angle its horizontal
    distance from the axis (xOffset, zOffset) squares to 0.5. *)
Theorem createCube_vertex_positions (xo yo zo hf angle : R) :
  Forall (fun v =>
            (py v = yo - 0.5 \/ py v = yo + 0.5 * hf) /\
            (px v - xo) * (px v - xo) + (pz v - zo) * (pz v - zo) = 0.5)
         (createCube xo yo zo hf angle).
Proof.
  eapply Forall_impl; [| apply createCube_positions_in_corners].
  intros v Hin. apply in_map_iff in Hin. destruct Hin as (c & Hpos & Hc).
  destruct (rotateTranslate_position angle xo yo zo c) as [Hy Hd].
  rewrite Hpos in Hy, Hd. unfold position in Hy, Hd. cbn [vx vy vz] in Hy, Hd.
  rewrite Hy, Hd.
  unfold cubeCorners in Hc. cbn [In] in Hc.
  repeat (destruct Hc as [<- | Hc]; [cbn [vx vy vz]; split; [lra | nra] |]).
  contradiction.
Qed.

(** X20: the rotations of createCube compose by adding angles: rotating a
    point about the Y axis by a and then by b is rotating it by a + b. *)
Theorem rotateY_compose (a b : R) (p : vec3) :
  rotateY b (rotateY a p) = rotateY (a + b) p.
Proof.
  unfold rotateY, rotateTranslate. cbn [vx vy vz].
  rewrite cos_plus, sin_plus.
  apply vec3_eq; ring.
Qed.

(** ** A whole frame *)

Lemma pillarVertices_length (pillars : list Pillar) (now mx : R) :
  length (pillarVertices pillars now mx) = (length pillars * 36)%nat.
Proof.
  unfold pillarVertices. apply flat_map_length_const.
  intros p. apply createCube_length.
Qed.

Lemma drawPillars_counts (verts : list VertexRecord) :
  length (drawPillars verts) = (2 + 2 * length verts)%nat /\
  length (filter isVertex (drawPillars verts)) = length verts.
Proof.
  unfold drawPillars. cbn [length filter isVertex].
  induction verts as [| v verts [IHl IHv]].
  - now cbn.
  - cbn [flat_map app length filter isVertex]. split.
    + rewrite length_app in *. cbn [length] in *. lia.
    + now rewrite IHv.
Qed.

Lemma drawPillars_normal_count (verts : list VertexRecord) :
  length (filter isNormal (drawPillars verts)) = length verts.
Proof.
  unfold drawPillars. cbn [filter isNormal].
  induction verts as [| v verts IH].
  - reflexivity.
  - cbn [flat_map app filter isNormal length]. now rewrite IH.
Qed.

(** The calls come in pairs, in the order of the vertex list: the normal of
    record i and then its position. *)
Lemma drawPillars_pairs (verts : list VertexRecord) (i : nat) :
  (i < length verts)%nat ->
  nth (1 + 2 * i) (drawPillars verts) EndShape
  = Normal (nx (nth i verts (mkVertex 0 0 0 0 0 0)))
           (ny (nth i verts (mkVertex 0 0 0 0 0 0)))
           (nz (nth i verts (mkVertex 0 0 0 0 0 0))) /\
  nth (2 + 2 * i) (drawPillars verts) EndShape
  = Vertex (px (nth i verts (mkVertex 0 0 0 0 0 0)))
           (py (nth i verts (mkVertex 0 0 0 0 0 0)))
           (pz (nth i verts (mkVertex 0 0 0 0 0 0))).
Proof.
  unfold drawPillars. revert i.
  induction verts as [| v verts IH]; intros i Hi.
  - cbn [length] in Hi. lia.
  - destruct i as [| i].
    + split; reflexivity.
    + cbn [length] in Hi.
      assert (Hi' : (i < length verts)%nat) by lia.
      destruct (IH i Hi') as [Hn Hv].
      replace (1 + 2 * S i)%nat with (S (S (1 + 2 * i))) by lia.
      replace (2 + 2 * S i)%nat with (S (S (2 + 2 * i))) by lia.
      cbn [flat_map app nth]. cbn [nth Nat.add] in Hn, Hv.
      split; [exact Hn | exact Hv].
Qed.

(** X21: on the vertex list draw builds, 36 records per pillar, the calls
    drawPillars makes are beginShape(TRIANGLES) first, endShape last, and in
    between, for each record in order, one normal call with the record's
    normal immediately followed by one vertex call with its position: 36
    normal calls and 36 vertex calls, that is 12 whole triangles, per
    pillar. *)
Theorem drawPillars_whole_triangles
    (pillars : list Pillar) (now mx : R) :
  length (pillarVertices pillars now mx) = (36 * length pillars)%nat /\
  hd EndShape (drawPillars (pillarVertices pillars now mx))
  = BeginShapeTriangles /\
  last (drawPillars (pillarVertices pillars now mx)) BeginShapeTriangles
  = EndShape /\
  length (drawPillars (pillarVertices pillars now mx))
  = (2 + 72 * length pillars)%nat /\
  length (filter isNormal (drawPillars (pillarVertices pillars now mx)))
  = (36 * length pillars)%nat /\
  length (filter isVertex (drawPillars (pillarVertices pillars now mx)))
  = (3 * (12 * length pillars))%nat /\
  forall i : nat,
    (i < 36 * length pillars)%nat ->
    nth (1 + 2 * i) (drawPillars (pillarVertices pillars now mx)) EndShape
    = Normal
        (nx (nth i (pillarVertices pillars now mx) (mkVertex 0 0 0 0 0 0)))
        (ny (nth i (pillarVertices pillars now mx) (mkVertex 0 0 0 0 0 0)))
        (nz (nth i (pillarVertices pillars now mx) (mkVertex 0 0 0 0 0 0)))
    /\
    nth (2 + 2 * i) (drawPillars (pillarVertices pillars now mx)) EndShape
    = Vertex
        (px (nth i (pillarVertices pillars now mx) (mkVertex 0 0 0 0 0 0)))
        (py (nth i (pillarVertices pillars now mx) (mkVertex 0 0 0 0 0 0)))
        (pz (nth i (pillarVertices pillars now mx) (mkVertex 0 0 0 0 0 0))).
Proof.
  set (verts := pillarVertices pillars now mx).
  assert (Hn : length verts = (36 * length pillars)%nat).
  { subst verts. rewrite pillarVertices_length. lia. }
  destruct (drawPillars_counts verts) as (Hl & Hv).
  pose proof (drawPillars_normal_count verts) as Hnc.
  split; [exact Hn |].
  split; [reflexivity |].
  split.
  { unfold drawPillars.
    change (BeginShapeTriangles
            :: flat_map (fun v => [Normal (nx v) (ny v) (nz v);
                                   Vertex (px v) (py v) (pz v)]) verts
            ++ [EndShape])
      with ((BeginShapeTriangles
             :: flat_map (fun v => [Normal (nx v) (ny v) (nz v);
                                    Vertex (px v) (py v) (pz v)]) verts)
            ++ [EndShape]).
    apply last_last. }
  split; [rewrite Hl, Hn; lia |].
  split; [rewrite Hnc, Hn; lia |].
  split; [rewrite Hv, Hn; lia |].
  intros i Hi. apply drawPillars_pairs. rewrite Hn. exact Hi.
Qed.

Lemma drawPillars_whole_triangles_witness :
  (0 < 36 * length sampleGrid)%nat /\
  nth (1 + 2 * 0) (drawPillars (pillarVertices sampleGrid 1 0)) EndShape
  = Normal
      (nx (nth 0 (pillarVertices sampleGrid 1 0) (mkVertex 0 0 0 0 0 0)))
      (ny (nth 0 (pillarVertices sampleGrid 1 0) (mkVertex 0 0 0 0 0 0)))
      (nz (nth 0 (pillarVertices sampleGrid 1 0) (mkVertex 0 0 0 0 0 0))).
Proof.
  assert (Hi : (0 < 36 * length sampleGrid)%nat)
    by (change (length sampleGrid) with 4%nat; lia).
  split; [exact Hi |].
  exact (proj1 (proj2 (proj2 (proj2 (proj2 (proj2 (proj2
           (drawPillars_whole_triangles sampleGrid 1 0)))))) 0%nat Hi)).
Defined.

Lemma drawPillars_heights (lo hi : R) (verts : list VertexRecord) :
  Forall (fun v => lo <= py v <= hi) verts ->
  Forall (vertexHeightWithin lo hi) (drawPillars verts).
Proof.
  intros Hv. unfold drawPillars.
  apply Forall_cons; [exact I |].
  apply Forall_app. split; [| repeat constructor].
  induction Hv as [| v verts Hy _ IH].
  - apply Forall_nil.
  - cbn [flat_map app]. apply Forall_cons; [exact I |].
    apply Forall_cons; [exact Hy | exact IH].
Qed.

Lemma pillarVertices_heights (maxH : R) (pillars : list Pillar) (now mx : R) :
  1 <= maxH ->
  Forall (heightInv maxH) pillars ->
  Forall (fun v => - maxH / 2 <= py v <= 0) (pillarVertices pillars now mx).
Proof.
  intros Hm Hps. unfold pillarVertices.
  induction Hps as [| p pillars Hp _ IH].
  - apply Forall_nil.
  - cbn [flat_map]. apply Forall_app. split; [| exact IH].
    destruct Hp as (_ & _ & Hc & _).
    eapply Forall_impl;
      [| apply (createCube_positions_in_corners (x p) 0 (z p)
                  (currentHeightFactor p) (pillarAngle p now mx))].
    intros v Hin. apply in_map_iff in Hin. destruct Hin as (c & Hpos & Hcin).
    assert (Hy : py v = vy c + 0).
    { change (py v) with (vy (position v)). rewrite <- Hpos. reflexivity. }
    rewrite Hy. unfold cubeCorners in Hcin. cbn [In] in Hcin.
    repeat (destruct Hcin as [<- | Hcin]; [cbn [vy]; lra |]).
    contradiction.
Qed.

(** X22: if the height bounds hold before a frame (all height factors in
    [-maxHeight, 0], maxHeight >= 1) and the pointer is inside the canvas,
    then they hold after it, and every vertex the frame submits has its y
    coordinate in [-maxHeight / 2, 0]. *)
Theorem draw_vertex_heights
    (maxH : R) (pillars : list Pillar) (inp : DrawInput) :
  1 <= maxH -> drawInputOk inp ->
  Forall (heightInv maxH) pillars ->
  Forall (heightInv maxH) (fst (draw maxH pillars inp)) /\
  Forall (vertexHeightWithin (- maxH / 2) 0) (snd (draw maxH pillars inp)).
Proof.
  intros Hm Hin Hps. unfold draw. cbv zeta. cbn [fst snd].
  assert (Hps' : Forall (heightInv maxH)
                        (stepFrame maxH pillars (drawFrame inp))).
  { unfold stepFrame, updatePillars. apply Forall_map.
    eapply Forall_impl; [| exact Hps].
    intros p Hp. apply updatePillar_heightInv; [exact Hp |].
    now apply drawFrame_frameOk. }
  split; [exact Hps' |].
  apply drawPillars_heights. now apply pillarVertices_heights.
Qed.

Lemma sampleGrid_heightInv : Forall (heightInv 10) sampleGrid.
Proof.
  eapply Forall_impl; [intros p; apply initState_heightInv |].
  apply initPillars_initState; [lra | intros _; lra].
Qed.

Lemma draw_vertex_heights_witness :
  1 <= 10 /\ drawInputOk sampleInput /\ Forall (heightInv 10) sampleGrid /\
  Forall (vertexHeightWithin (- 10 / 2) 0)
         (snd (draw 10 sampleGrid sampleInput)).
Proof.
  assert (Hm : 1 <= 10) by lra.
  split; [exact Hm |].
  split; [exact sampleInput_ok |].
  split; [exact sampleGrid_heightInv |].
  exact (proj2 (draw_vertex_heights 10 sampleGrid sampleInput Hm
                  sampleInput_ok sampleGrid_heightInv)).
Defined.

(** ** Colours and camera *)

(** [flattenColorArray] lays the colours out three numbers each, in order:
    the result has 3 * n entries and entry 3i + k is channel k of colour
    i. *)
Lemma flattenColorArray_layout (arr : list vec3) :
  length (flattenColorArray arr) = (3 * length arr)%nat /\
  forall i : nat,
    nth (3 * i) (flattenColorArray arr) 0 = vx (nth i arr vzero) /\
    nth (3 * i + 1) (flattenColorArray arr) 0 = vy (nth i arr vzero) /\
    nth (3 * i + 2) (flattenColorArray arr) 0 = vz (nth i arr vzero).
Proof.
  unfold flattenColorArray. split.
  - rewrite (flat_map_length_const _ 3); [lia | reflexivity].
  - induction arr as [| c arr IH]; intros i.
    + assert (Hnil : forall j : nat, nth j (@nil R) 0 = 0)
        by (intros [| j]; reflexivity).
      assert (Hv : nth i (@nil vec3) vzero = vzero)
        by (destruct i; reflexivity).
      cbn [flat_map]. rewrite !Hnil, Hv. now cbn.
    + destruct i as [| i].
      * cbn. auto.
      * replace (3 * S i)%nat with (S (S (S (3 * i)))) by lia.
        cbn [flat_map app Nat.add nth]. apply IH.
Qed.

Lemma rgbToFloat_inUnit (r g b : R) :
  0 <= r <= 255 -> 0 <= g <= 255 -> 0 <= b <= 255 ->
  inUnit (rgbToFloat r g b).
Proof.
  intros Hr Hg Hb. unfold inUnit, rgbToFloat. cbn [vx vy vz].
  repeat split; lra.
Qed.

(** X23: the camera setupCamera places is at distance radius from the scene
    centre whatever the clock reading: the squared distance is radius
    squared, and the camera's y coordinate is the centre's minus
    radius / sqrt 2. *)
Theorem cameraPosition_on_sphere (center : vec3) (rad millis : R) :
  Fragment.dot (Fragment.vsub (cameraPosition center rad millis) center)
               (Fragment.vsub (cameraPosition center rad millis) center)
  = rad * rad /\
  vy (cameraPosition center rad millis) = vy center - rad / sqrt 2.
Proof.
  assert (He : radians (-45) = - (PI / 4)) by (unfold radians; lra).
  unfold cameraPosition. cbv zeta. rewrite He.
  unfold Fragment.dot, Fragment.vsub. cbn [vx vy vz].
  set (az := radians (sin millis * 50)).
  pose proof (sin2_cos2 az) as Haz. unfold Rsqr in Haz.
  pose proof (sin2_cos2 (- (PI / 4))) as Hel. unfold Rsqr in Hel.
  split.
  - set (ce := cos (- (PI / 4))) in *. set (se := sin (- (PI / 4))) in *.
    replace ((vx center + rad * ce * cos az - vx center)
             * (vx center + rad * ce * cos az - vx center)
             + (vy center + rad * se - vy center)
               * (vy center + rad * se - vy center)
             + (vz center + rad * ce * sin az - vz center)
               * (vz center + rad * ce * sin az - vz center))
      with (rad * rad
            * (ce * ce * (sin az * sin az + cos az * cos az) + se * se))
      by ring.
    rewrite Haz. replace (ce * ce * 1 + se * se) with (se * se + ce * ce)
      by ring.
    rewrite Hel. ring.
  - rewrite sin_neg, sin_PI4. unfold Rdiv. ring.
Qed.

(** ** Noise and Fresnel term of the shader *)

Lemma fract_range (t : R) : 0 <= Fragment.fract t < 1.
Proof.
  destruct (base_fp t) as [H0 H1].
  unfold Fragment.fract, Fragment.floor. unfold frac_part in H0, H1. lra.
Qed.

Lemma hash_range (p : Fragment.vec2) : 0 <= Fragment.hash p < 1.
Proof. unfold Fragment.hash. apply fract_range. Qed.

Lemma mix_below_1 (a b t : R) :
  0 <= a < 1 -> 0 <= b < 1 -> 0 <= t <= 1 -> 0 <= Fragment.mix a b t < 1.
Proof.
  intros Ha Hb Ht. unfold Fragment.mix. split; [nra |].
  destruct (Rle_lt_dec t 0) as [Hz | Hp].
  - assert (Ht0 : t = 0) by lra. subst t. lra.
  - assert (H1 : 0 < (1 - b) * t) by (apply Rmult_lt_0_compat; lra).
    assert (H2 : 0 <= (1 - a) * (1 - t)) by (apply Rmult_le_pos; lra).
    lra.
Qed.

Lemma hermite_range (f : R) :
  0 <= f <= 1 -> 0 <= f * f * (3.0 - 2.0 * f) <= 1.
Proof.
  intros Hf.
  assert (Hlow : 0 <= f * f * (3.0 - 2.0 * f)) by (apply Rmult_le_pos; nra).
  assert (Hup : 0 <= (1 - f) * (1 - f) * (1 + 2 * f))
    by (apply Rmult_le_pos; nra).
  replace ((1 - f) * (1 - f) * (1 + 2 * f))
    with (1 - f * f * (3.0 - 2.0 * f)) in Hup by nra.
  lra.
Qed.

Lemma floor_integer (m : Z) : Fragment.floor (IZR m) = IZR m.
Proof.
  unfold Fragment.floor. f_equal. symmetry. apply Int_part_spec. lra.
Qed.

(** X24: hash and pseudoNoise return values in [0, 1) for every argument,
    and at a point with integer coordinates pseudoNoise is the hash of that
    point. *)
Theorem pseudoNoise_range :
  (forall p : Fragment.vec2,
     0 <= Fragment.hash p < 1 /\ 0 <= Fragment.pseudoNoise p < 1) /\
  (forall m n : Z,
     Fragment.pseudoNoise (Fragment.Vec2 (IZR m) (IZR n))
     = Fragment.hash (Fragment.Vec2 (IZR m) (IZR n))).
Proof.
  split.
  - intros p. split; [apply hash_range |].
    unfold Fragment.pseudoNoise. cbv zeta. cbn [Fragment.ux Fragment.uy].
    assert (Hfx : 0 <= Fragment.fract (Fragment.ux p) <= 1)
      by (pose proof (fract_range (Fragment.ux p)); lra).
    assert (Hfy : 0 <= Fragment.fract (Fragment.uy p) <= 1)
      by (pose proof (fract_range (Fragment.uy p)); lra).
    apply mix_below_1; [| | now apply hermite_range];
      (apply mix_below_1;
       [apply hash_range | apply hash_range | now apply hermite_range]).
  - intros m n. unfold Fragment.pseudoNoise. cbv zeta.
    cbn [Fragment.ux Fragment.uy].
    unfold Fragment.fract. rewrite !floor_integer.
    replace (IZR m - IZR m) with 0 by ring.
    replace (IZR n - IZR n) with 0 by ring.
    unfold Fragment.mix. nra.
Qed.

(** X25: for a cosine in [0, 1] and a base reflectance with channels in
    [0, 1], every channel of fresnelSchlick lies between the base
    reflectance and 1; at cosine 1 the result is the base reflectance, at
    cosine 0 it is white. *)
Theorem fresnelSchlick_range (cosTheta : R) (F0 : vec3) :
  0 <= cosTheta <= 1 -> inUnit F0 ->
  vx F0 <= vx (Fragment.fresnelSchlick cosTheta F0) <= 1 /\
  vy F0 <= vy (Fragment.fresnelSchlick cosTheta F0) <= 1 /\
  vz F0 <= vz (Fragment.fresnelSchlick cosTheta F0) <= 1 /\
  Fragment.fresnelSchlick 1 F0 = F0 /\
  Fragment.fresnelSchlick 0 F0 = Vec3 1 1 1.
Proof.
  intros Hc (Hx & Hy & Hz).
  assert (Hp : 0 <= (1.0 - cosTheta) ^ 5 <= 1).
  { split; [apply pow_le; lra |].
    rewrite <- (pow1 5). apply pow_incr. lra. }
  unfold Fragment.fresnelSchlick. cbv zeta. cbn [vx vy vz].
  set (q := (1.0 - cosTheta) ^ 5) in *.
  split; [split; nra |]. split; [split; nra |]. split; [split; nra |].
  split.
  - replace (1.0 - 1) with 0 by lra. rewrite pow_i by lia.
    destruct F0 as [a b c]. cbn [vx vy vz]. apply vec3_eq; lra.
  - replace (1.0 - 0) with 1 by lra. rewrite pow1.
    apply vec3_eq; lra.
Qed.

Lemma sampleF0_inUnit : inUnit (Vec3 0.04 0.04 0.04).
Proof. unfold inUnit. cbn [vx vy vz]. repeat split; lra. Qed.

Lemma fresnelSchlick_range_witness :
  0 <= 0.5 <= 1 /\ inUnit (Vec3 0.04 0.04 0.04) /\
  vx (Vec3 0.04 0.04 0.04)
  <= vx (Fragment.fresnelSchlick 0.5 (Vec3 0.04 0.04 0.04)) <= 1.
Proof.
  assert (Hc : 0 <= 0.5 <= 1) by lra.
  split; [exact Hc | split; [exact sampleF0_inUnit |]].
  exact (proj1 (fresnelSchlick_range 0.5 (Vec3 0.04 0.04 0.04) Hc
                  sampleF0_inUnit)).
Defined.

(** ** More on the palette blend *)

Lemma mix3_inUnit (a b : vec3) (t : R) :
  inUnit a -> inUnit b -> 0 <= t <= 1 -> inUnit (Fragment.mix3 a b t).
Proof.
  intros (Hx & Hy & Hz) (Hx' & Hy' & Hz') Ht.
  unfold inUnit, Fragment.mix3, Fragment.mix. cbn [vx vy vz].
  repeat split; nra.
Qed.

Lemma paletteLoop_inUnit (u : nat -> vec3) (x : R) (l : list nat) :
  (forall i, In i l -> inUnit (u (i + 1)%nat)) ->
  forall b, inUnit b ->
    inUnit (fold_left (Fragment.paletteStep u 0.0 (1.0 / 5.0) x) l b).
Proof.
  induction l as [| i l IH]; intros Hu b Hb.
  - exact Hb.
  - cbn [fold_left]. apply IH.
    + intros j Hj. apply Hu. now right.
    + rewrite paletteStep_weight. apply mix3_inUnit.
      * exact Hb.
      * apply Hu. now left.
      * apply smoothstep_range.
Qed.

(** X26: the blend never leaves the colour range: if the ten array entries
    the loop reads (indices 0 to 9) have their channels in [0, 1], so has the
    blended colour, for every value of panning_vUv.x. *)
Theorem paletteBlend_inUnit (u : nat -> vec3) (x : R) :
  (forall i : nat, (i <= 9)%nat -> inUnit (u i)) ->
  inUnit (Fragment.paletteBlend u x).
Proof.
  intros Hu. rewrite paletteBlend_unfold.
  apply mix3_inUnit.
  - apply paletteLoop_inUnit.
    + intros i Hi. apply in_seq in Hi. apply Hu. lia.
    + apply Hu. lia.
  - apply Hu. lia.
  - apply wrapWeight_range.
Qed.

Lemma u_color_all_inUnit (i : nat) : inUnit (u_color i).
Proof.
  unfold u_color, palette, rgbToFloat, vzero.
  do 5 (destruct i as [| i];
        [unfold inUnit; cbn [nth vx vy vz]; repeat split; lra |]).
  destruct i; unfold inUnit; cbn [nth vx vy vz]; repeat split; lra.
Qed.

Lemma paletteBlend_inUnit_witness :
  (forall i : nat, (i <= 9)%nat -> inUnit (u_color i)) /\
  inUnit (Fragment.paletteBlend u_color 0.37).
Proof.
  assert (Hu : forall i : nat, (i <= 9)%nat -> inUnit (u_color i))
    by (intros i _; apply u_color_all_inUnit).
  split; [exact Hu |].
  exact (paletteBlend_inUnit u_color 0.37 Hu).
Defined.

Lemma wrapWeight_early (x : R) : x <= 0.8 -> Fragment.wrapWeight x = 0.
Proof.
  intros Hx. unfold Fragment.wrapWeight. apply smoothstep_below; lra.
Qed.

Ltac palette_weights :=
  repeat match goal with
  | |- context [Fragment.paletteWeight ?i ?x] =>
      first [ rewrite (paletteWeight_after i x) by (cbn [INR]; lra)
            | rewrite (paletteWeight_before i x) by (cbn [INR]; lra) ]
  end;
  rewrite ?mix3_weight_1, ?mix3_weight_0.

(** On the first four fifths, between the knots k/5 and (k+1)/5, the blend
    is the mix of the two neighbouring palette colours. *)
Lemma paletteBlend_segment (u : nat -> vec3) (k : nat) (x : R) :
  (k < 4)%nat -> 0.2 * INR k <= x <= 0.2 * INR k + 0.2 ->
  Fragment.paletteBlend u x
  = Fragment.mix3 (u k) (u (k + 1)%nat) (Fragment.paletteWeight k x).
Proof.
  intros Hk [Hl Hu]. rewrite paletteBlend_unfold.
  assert (Hcases : (k = 0 \/ k = 1 \/ k = 2 \/ k = 3)%nat) by lia.
  destruct Hcases as [-> | [-> | [-> | ->]]]; cbn [INR] in Hl, Hu;
    rewrite wrapWeight_early by lra; rewrite mix3_weight_0;
    cbn [seq fold_left]; rewrite !paletteStep_weight; cbn [Nat.add];
    palette_weights; reflexivity.
Qed.

(** X27: on each of the first four fifths of the range only the two
    neighbouring palette colours contribute: for k < 4 and panning_vUv.x in
    [k/5, (k+1)/5] the blend is mix(u_color[k], u_color[k+1], w) with w the
    smoothstep weight of loop iteration k; and at the knots k/5, k = 0..4,
    the blend is exactly u_color[k]. *)
Theorem paletteBlend_segments (u : nat -> vec3) (k : nat) (x : R) :
  ((k < 4)%nat -> 0.2 * INR k <= x <= 0.2 * INR k + 0.2 ->
   Fragment.paletteBlend u x
   = Fragment.mix3 (u k) (u (k + 1)%nat) (Fragment.paletteWeight k x)) /\
  ((k <= 4)%nat -> Fragment.paletteBlend u (0.2 * INR k) = u k).
Proof.
  split; [apply paletteBlend_segment |].
  intros Hk. pose proof (pos_INR k) as Hpos.
  destruct (Nat.eq_dec k 4) as [-> | Hne].
  - cbn [INR]. rewrite paletteBlend_last_fifth by lra.
    rewrite wrapWeight_early by lra. now rewrite !mix3_weight_0.
  - rewrite (paletteBlend_segment u k) by (try lia; lra).
    rewrite paletteWeight_before by lra. apply mix3_weight_0.
Qed.

Lemma paletteBlend_segments_witness :
  (2 < 4)%nat /\ 0.2 * INR 2 <= 0.5 <= 0.2 * INR 2 + 0.2 /\
  Fragment.paletteBlend u_color 0.5
  = Fragment.mix3 (u_color 2) (u_color (2 + 1)%nat)
                  (Fragment.paletteWeight 2 0.5).
Proof.
  assert (Hk : (2 < 4)%nat) by lia.
  assert (Hx : 0.2 * INR 2 <= 0.5 <= 0.2 * INR 2 + 0.2)
    by (cbn [INR]; lra).
  split; [exact Hk | split; [exact Hx |]].
  exact (proj1 (paletteBlend_segments u_color 2 0.5) Hk Hx).
Defined.

Lemma wrapWeight_09 : Fragment.wrapWeight 0.9 = 0.5.
Proof.
  unfold Fragment.wrapWeight, Fragment.smoothstep. cbv zeta.
  replace ((0.9 - (0.0 + 1.0 / 5.0 * 4.0))
           / (0.0 + 1.0 / 5.0 * 5.0 - (0.0 + 1.0 / 5.0 * 4.0)))
    with 0.5 by lra.
  rewrite clamp_inside by lra. lra.
Qed.

(** X28: on the last fifth of the range the array entry u_color[5], which
    the sketch never sets, enters the blend: for panning_vUv.x in [0.8, 1]
    and s the wrap-around smoothstep weight, every channel of the blend is
    (1-s)^2 * u_color[4] + s*(1-s) * u_color[5] + s * u_color[0]; at 0.9 the
    weight s is 0.5, so u_color[5] has weight 1/4. *)
Theorem paletteBlend_last_fifth_channels (u : nat -> vec3) (x : R) :
  0.8 <= x <= 1 ->
  Fragment.paletteBlend u x
  = Vec3 ((1 - Fragment.wrapWeight x) * (1 - Fragment.wrapWeight x)
            * vx (u 4%nat)
          + Fragment.wrapWeight x * (1 - Fragment.wrapWeight x) * vx (u 5%nat)
          + Fragment.wrapWeight x * vx (u 0%nat))
         ((1 - Fragment.wrapWeight x) * (1 - Fragment.wrapWeight x)
            * vy (u 4%nat)
          + Fragment.wrapWeight x * (1 - Fragment.wrapWeight x) * vy (u 5%nat)
          + Fragment.wrapWeight x * vy (u 0%nat))
         ((1 - Fragment.wrapWeight x) * (1 - Fragment.wrapWeight x)
            * vz (u 4%nat)
          + Fragment.wrapWeight x * (1 - Fragment.wrapWeight x) * vz (u 5%nat)
          + Fragment.wrapWeight x * vz (u 0%nat)) /\
  Fragment.wrapWeight 0.9 = 0.5.
Proof.
  intros Hx. split; [| exact wrapWeight_09].
  rewrite paletteBlend_last_fifth by assumption.
  unfold Fragment.mix3, Fragment.mix. cbn [vx vy vz].
  apply vec3_eq; ring.
Qed.

Lemma paletteBlend_last_fifth_channels_witness :
  0.8 <= 0.9 <= 1 /\
  vx (Fragment.paletteBlend u_color 0.9)
  = (1 - 0.5) * (1 - 0.5) * vx (u_color 4) + 0.5 * (1 - 0.5) * vx (u_color 5)
    + 0.5 * vx (u_color 0).
Proof.
  assert (Hx : 0.8 <= 0.9 <= 1) by lra.
  split; [exact Hx |].
  rewrite (proj1 (paletteBlend_last_fifth_channels u_color 0.9 Hx)).
  cbn [vx]. rewrite wrapWeight_09. reflexivity.
Defined.

(** ** Geometry term *)

Lemma NdotV_range (vNormal uCamPos vWorldPosition : vec3) :
  0 <= Fragment.NdotV vNormal uCamPos vWorldPosition <= 1.
Proof.
  unfold Fragment.NdotV, Fragment.N, Fragment.V.
  apply Rmax_0_range. apply dot_normalized_le_1.
Qed.

Lemma NdotL_range (vNormal uSunLightDir : vec3) :
  0 <= Fragment.NdotL vNormal uSunLightDir <= 1.
Proof.
  unfold Fragment.NdotL, Fragment.NdotS, Fragment.N, Fragment.S.
  apply Rmax_0_range. apply dot_normalized_le_1.
Qed.

Lemma schlick_term (c kk : R) :
  0 <= c <= 1 -> 0 < kk ->
  0 < c * (1.0 - kk) + kk /\ 0 <= c / (c * (1.0 - kk) + kk) <= 1.
Proof.
  intros [Hc0 Hc1] Hk.
  assert (Hd : 0 < c * (1.0 - kk) + kk).
  { destruct (Req_dec c 1) as [-> | Hne]; [lra |].
    assert (0 < kk * (1 - c)) by (apply Rmult_lt_0_compat; lra). lra. }
  split; [exact Hd |]. split.
  - now apply fraction_nonneg.
  - apply (Rmult_le_reg_r (c * (1.0 - kk) + kk)); [exact Hd |].
    unfold Rdiv. rewrite Rmult_assoc, Rinv_l by lra.
    assert (0 <= kk * (1 - c)) by (apply Rmult_le_pos; lra). lra.
Qed.

(** X29: for every roughness other than -1 and every normal, camera,
    position and sun vector, the two divisors of the Schlick-GGX geometry
    term are strictly positive, and G_V, G_L and their product G lie in
    [0, 1]. *)
Theorem geometry_term_range
    (vNormal uCamPos vWorldPosition uSunLightDir : vec3) (roughness : R) :
  roughness <> -1 ->
  0 < Fragment.G_V_divisor vNormal uCamPos vWorldPosition roughness /\
  0 < Fragment.G_L_divisor vNormal uSunLightDir roughness /\
  0 <= Fragment.G_V vNormal uCamPos vWorldPosition roughness <= 1 /\
  0 <= Fragment.G_L vNormal uSunLightDir roughness <= 1 /\
  0 <= Fragment.G vNormal uCamPos vWorldPosition uSunLightDir roughness <= 1.
Proof.
  intros Hr.
  assert (Hk : 0 < Fragment.k roughness).
  { unfold Fragment.k.
    assert (0 < (roughness + 1.0) * (roughness + 1.0)) by nra.
    unfold Rdiv. nra. }
  destruct (schlick_term _ _ (NdotV_range vNormal uCamPos vWorldPosition) Hk)
    as (HdV & HgV).
  destruct (schlick_term _ _ (NdotL_range vNormal uSunLightDir) Hk)
    as (HdL & HgL).
  unfold Fragment.G, Fragment.G_V, Fragment.G_L, Fragment.G_V_divisor,
         Fragment.G_L_divisor.
  repeat split; try assumption; try tauto; nra.
Qed.

Lemma geometry_term_range_witness :
  uRoughness <> -1 /\
  0 < Fragment.G_V_divisor (Vec3 0 1 0) (Vec3 1 2 3) vzero uRoughness.
Proof.
  assert (Hr : uRoughness <> -1) by (unfold uRoughness; lra).
  split; [exact Hr |].
  exact (proj1 (geometry_term_range (Vec3 0 1 0) (Vec3 1 2 3) vzero
                  (Vec3 0.3 0.5 0.3) uRoughness Hr)).
Defined.

(** ** Poles and seam of the environment map *)

(** X30: directionToUV clamps the vertical component: every direction with
    y >= 1 maps to v = 0, every direction with y <= -1 maps to v = 1, and a
    horizontal direction (y = 0) maps to v = 1/2; a direction with x = 0 and
    z > 0 maps to u = 1/2, and one with x = 0 and z < 0 to the seam u = 1. *)
Theorem directionToUV_poles (dir : vec3) :
  (1 <= vy dir -> Fragment.uy (Fragment.directionToUV dir) = 0) /\
  (vy dir <= -1 -> Fragment.uy (Fragment.directionToUV dir) = 1) /\
  (vy dir = 0 -> Fragment.uy (Fragment.directionToUV dir) = 1 / 2) /\
  (vx dir = 0 -> 0 < vz dir ->
   Fragment.ux (Fragment.directionToUV dir) = 1 / 2) /\
  (vx dir = 0 -> vz dir < 0 ->
   Fragment.ux (Fragment.directionToUV dir) = 1).
Proof.
  pose proof PI_RGT_0 as Hpi.
  unfold Fragment.directionToUV. cbv zeta. cbn [Fragment.ux Fragment.uy].
  split; [| split; [| split; [| split]]].
  - intros Hy. rewrite clamp_above by lra.
    replace 1.0 with 1 by lra. rewrite acos_1. unfold Rdiv. ring.
  - intros Hy. rewrite clamp_below by lra.
    replace (-1.0) with (Ropp 1) by lra. rewrite acos_opp, acos_1.
    field. lra.
  - intros Hy. rewrite clamp_inside by lra. rewrite Hy, acos_0.
    field. lra.
  - intros Hx Hz. rewrite Hx. unfold Fragment.atan2.
    destruct (Rlt_dec 0 (vz dir)) as [_ | Hn]; [| contradiction].
    replace (0 / vz dir) with 0 by (unfold Rdiv; ring).
    rewrite atan_0.
    replace ((0 + PI) / (2.0 * PI)) with (PI / (2 * PI))
      by (f_equal; lra).
    field. lra.
  - intros Hx Hz. rewrite Hx. unfold Fragment.atan2.
    destruct (Rlt_dec 0 (vz dir)) as [Hp | _]; [lra |].
    destruct (Rlt_dec (vz dir) 0) as [_ | Hn]; [| contradiction].
    destruct (Rle_dec 0 0) as [_ | Hn]; [| lra].
    replace (0 / vz dir) with 0 by (unfold Rdiv; ring).
    rewrite atan_0.
    replace ((0 + PI + PI) / (2.0 * PI)) with ((2 * PI) / (2 * PI))
      by (f_equal; lra).
    field. lra.
Qed.

Lemma directionToUV_poles_witness :
  1 <= vy (Vec3 0 1 0) /\
  Fragment.uy (Fragment.directionToUV (Vec3 0 1 0)) = 0.
Proof.
  assert (Hy : 1 <= vy (Vec3 0 1 0)) by (cbn [vy]; lra).
  split; [exact Hy |].
  exact (proj1 (directionToUV_poles (Vec3 0 1 0)) Hy).
Defined.

(* ================================================================= *)
(** * Part IV: divisions by zero *)
(* ================================================================= *)

Lemma divide_some (a b : R) : b <> 0 -> Checked.divide a b = Some (a / b).
Proof.
  intros Hb. unfold Checked.divide.
  destruct (Req_EM_T b 0) as [Hz | _]; [contradiction | reflexivity].
Qed.

Lemma divide_zero (a : R) : Checked.divide a 0 = None.
Proof.
  unfold Checked.divide.
  destruct (Req_EM_T 0 0) as [_ | Hn]; [reflexivity | now elim Hn].
Qed.

Lemma divide3_some (v : vec3) (b : R) :
  b <> 0 -> Checked.divide3 v b = Some (Vec3 (vx v / b) (vy v / b) (vz v / b)).
Proof.
  intros Hb. unfold Checked.divide3.
  rewrite !divide_some by assumption. reflexivity.
Qed.

Lemma divide3_zero (v : vec3) : Checked.divide3 v 0 = None.
Proof. unfold Checked.divide3. now rewrite divide_zero. Qed.

Lemma normalize_some (v : vec3) :
  Fragment.length3 v <> 0 ->
  Checked.normalize v = Some (Fragment.normalize v).
Proof. intros Hv. unfold Checked.normalize. now rewrite divide3_some. Qed.

Lemma normalize_zero_length (v : vec3) :
  Fragment.length3 v = 0 -> Checked.normalize v = None.
Proof.
  intros Hv. unfold Checked.normalize. rewrite Hv. apply divide3_zero.
Qed.

(** The checked [computeNormal] never divides by zero, and computes what
    the unchecked one computes. *)
Lemma computeNormal_checked (p1 p2 p3 : vec3) :
  Checked.computeNormal p1 p2 p3 = Some (computeNormal p1 p2 p3).
Proof.
  unfold Checked.computeNormal, computeNormal. cbv zeta.
  match goal with
  | |- context [Rgt_dec ?l 0.0] =>
      destruct (Rgt_dec l 0.0) as [Hgt | _];
      [rewrite divide3_some by lra; reflexivity | reflexivity]
  end.
Qed.

(** On a degenerate triangle the division the guard skips would have been a
    division by zero. *)
Lemma computeNormal_guard_needed (p1 p2 p3 : vec3) :
  edgeCrossLength p1 p2 p3 = 0 ->
  Checked.divide3 (edgeCross p1 p2 p3) (edgeCrossLength p1 p2 p3) = None /\
  Checked.computeNormal p1 p2 p3 = Some vzero.
Proof.
  intros Hz. split.
  - rewrite Hz. apply divide3_zero.
  - rewrite computeNormal_checked. f_equal.
    destruct (computeNormal_guarded p1 p2 p3) as [[Hgt _] | [_ Hv]];
      [lra | exact Hv].
Qed.

Lemma denom_margin
    (vNormal uCamPos vWorldPosition uSunLightDir : vec3) :
  0.0001
  <= Fragment.denom vNormal uCamPos vWorldPosition uSunLightDir uRoughness.
Proof.
  unfold Fragment.denom.
  pose proof (NdotH_range vNormal uCamPos vWorldPosition uSunLightDir)
    as [Hl Hu].
  set (h := Fragment.NdotH vNormal uCamPos vWorldPosition uSunLightDir) in *.
  assert (Ha : Fragment.alpha2 uRoughness = 0.0001).
  { unfold Fragment.alpha2, Fragment.alpha, uRoughness. lra. }
  rewrite Ha. assert (Hh : 0 <= h * h <= 1) by nra. nra.
Qed.

(** With non-zero arguments to every [normalize], no division of the sun
    specular term has a zero divisor, and the value is the one computed with
    the plain division. *)
Lemma sunSpecular_some
    (vNormal uCamPos vWorldPosition uLightDir uSunLightDir baseColor : vec3)
    (roughness metalness : R) :
  Checked.directionsNonzero vNormal uCamPos vWorldPosition uLightDir
                            uSunLightDir ->
  roughness <> 0 -> roughness <> -1 ->
  Checked.sunSpecular vNormal uCamPos vWorldPosition uLightDir uSunLightDir
                      baseColor roughness metalness
  = Some (Fragment.specularSun vNormal uCamPos vWorldPosition uSunLightDir
                               baseColor roughness metalness).
Proof.
  intros (HN & HV & HL & HS & HH) Hr Hr1.
  unfold Fragment.V, Fragment.S in HH.
  pose proof (D_divisor_positive vNormal uCamPos vWorldPosition uSunLightDir
                roughness Hr) as HD.
  unfold Fragment.D_divisor, Fragment.denom, Fragment.NdotH, Fragment.N,
         Fragment.H, Fragment.V, Fragment.S, Fragment.alpha2, Fragment.alpha
    in HD.
  assert (Hk : 0 < (roughness + 1.0) * (roughness + 1.0) / 8.0).
  { assert (0 < (roughness + 1.0) * (roughness + 1.0)) by nra.
    unfold Rdiv. nra. }
  destruct (schlick_term _ _ (NdotV_range vNormal uCamPos vWorldPosition) Hk)
    as (HdV & _).
  destruct (schlick_term _ _ (NdotL_range vNormal uSunLightDir) Hk)
    as (HdL & _).
  unfold Fragment.NdotV, Fragment.NdotL, Fragment.NdotS, Fragment.N,
         Fragment.V, Fragment.S in HdV, HdL.
  destruct (denominator_lower_bound vNormal uCamPos vWorldPosition
              uSunLightDir) as (_ & _ & Hden).
  unfold Fragment.denominator, Fragment.NdotV, Fragment.NdotL,
         Fragment.NdotS, Fragment.N, Fragment.V, Fragment.S in Hden.
  unfold Checked.sunSpecular.
  rewrite (normalize_some vNormal HN).
  rewrite (normalize_some _ HV).
  rewrite (normalize_some uLightDir HL).
  rewrite (normalize_some uSunLightDir HS).
  cbn [Checked.bind]. cbv zeta.
  rewrite (normalize_some _ HH). cbn [Checked.bind].
  rewrite divide_some by (apply Rgt_not_eq; exact HD). cbn [Checked.bind].
  rewrite divide_some by (apply Rgt_not_eq; exact HdV). cbn [Checked.bind].
  rewrite divide_some by (apply Rgt_not_eq; exact HdL). cbn [Checked.bind].
  rewrite divide3_some by (apply Rgt_not_eq; lra).
  reflexivity.
Qed.

Lemma length3_nonzero (v : vec3) :
  0 < Fragment.dot v v -> Fragment.length3 v <> 0.
Proof.
  intros Hd. unfold Fragment.length3.
  apply Rgt_not_eq. now apply sqrt_lt_R0.
Qed.

Lemma length3_vzero : Fragment.length3 vzero = 0.
Proof.
  unfold Fragment.length3, Fragment.dot, vzero. cbn [vx vy vz].
  replace (0 * 0 + 0 * 0 + 0 * 0) with 0 by ring. apply sqrt_0.
Qed.

Lemma normalize_unit (v : vec3) :
  Fragment.length3 v <> 0 ->
  Fragment.dot (Fragment.normalize v) (Fragment.normalize v) = 1.
Proof.
  intros Hl. pose proof (dot_self_nonneg v) as Hd.
  pose proof (sqrt_sqrt _ Hd) as Hss.
  unfold Fragment.normalize, Fragment.length3 in *.
  set (l := sqrt (Fragment.dot v v)) in *.
  unfold Fragment.dot at 1. cbn [vx vy vz].
  replace (vx v / l * (vx v / l) + vy v / l * (vy v / l)
           + vz v / l * (vz v / l))
    with (Fragment.dot v v / (l * l))
    by (unfold Fragment.dot; field; exact Hl).
  rewrite Hss. unfold Rdiv. apply Rinv_r.
  intros Hz. apply Hl. unfold l. rewrite Hz. apply sqrt_0.
Qed.

(** Two opposite vectors normalise to opposite unit vectors, whose sum is
    the zero vector. *)
Lemma opposite_normalized_cancel (a b : vec3) :
  vx b = - vx a -> vy b = - vy a -> vz b = - vz a ->
  Fragment.vadd (Fragment.normalize b) (Fragment.normalize a) = vzero.
Proof.
  intros Hx Hy Hz.
  assert (Hl : Fragment.length3 b = Fragment.length3 a).
  { unfold Fragment.length3, Fragment.dot. rewrite Hx, Hy, Hz.
    f_equal. ring. }
  unfold Fragment.vadd, Fragment.normalize, vzero. cbn [vx vy vz].
  rewrite Hl, Hx, Hy, Hz. apply vec3_eq; unfold Rdiv; ring.
Qed.

Lemma same_normalized_sum (a : vec3) :
  Fragment.length3 a <> 0 ->
  Fragment.length3 (Fragment.vadd (Fragment.normalize a)
                                  (Fragment.normalize a)) <> 0.
Proof.
  intros Ha. apply length3_nonzero.
  pose proof (normalize_unit a Ha) as Hu.
  unfold Fragment.vadd, Fragment.dot in *. cbn [vx vy vz] in *.
  set (n := Fragment.normalize a) in *. nra.
Qed.

Lemma uSunLightDir_nonzero : Fragment.length3 uSunLightDir <> 0.
Proof.
  apply length3_nonzero. unfold Fragment.dot, uSunLightDir.
  cbn [vx vy vz]. lra.
Qed.

Lemma uLightDir_nonzero : Fragment.length3 uLightDir <> 0.
Proof.
  apply length3_nonzero. unfold Fragment.dot, uLightDir.
  cbn [vx vy vz]. lra.
Qed.

Lemma vsub_vzero (a : vec3) : Fragment.vsub a vzero = a.
Proof.
  destruct a as [a0 a1 a2]. unfold Fragment.vsub, vzero. cbn [vx vy vz].
  apply vec3_eq; ring.
Qed.

Lemma againstSun_nonzero : Fragment.length3 Checked.againstSun <> 0.
Proof.
  apply length3_nonzero. unfold Fragment.dot, Checked.againstSun.
  cbn [vx vy vz]. lra.
Qed.

(** The camera looking along the sun direction: a configuration at which
    every [normalize] has a non-zero argument. *)
Lemma towardsSun_directionsNonzero :
  Checked.directionsNonzero (Vec3 0 1 0) uSunLightDir vzero uLightDir
                            uSunLightDir.
Proof.
  unfold Checked.directionsNonzero, Fragment.V, Fragment.S.
  rewrite vsub_vzero.
  split; [| split; [| split; [| split]]].
  - apply length3_nonzero. unfold Fragment.dot. cbn [vx vy vz]. lra.
  - exact uSunLightDir_nonzero.
  - exact uLightDir_nonzero.
  - exact uSunLightDir_nonzero.
  - apply same_normalized_sum. exact uSunLightDir_nonzero.
Qed.

(** C9 (as amended): [computeNormal] never divides by zero: it divides by
    the cross-product length only when that is strictly positive, and on a
    degenerate triangle, where the division would be by zero, it returns the
    zero vector undivided.  In the fragment shader, whenever the arguments of
    the [normalize] calls (vNormal, uCamPos - vWorldPosition, uLightDir,
    uSunLightDir and V + S) are not of length zero, no division of the sun
    specular term has a zero divisor: NdotV and NdotL are non-negative, the
    specular divisor 4*NdotV*NdotL + 0.001 is at least 0.001, and with the
    roughness 0.1 the sketch uploads denom is at least 0.0001 and the GGX
    divisor PI*denom*denom is strictly positive, in exact arithmetic. *)
Theorem divisions_checked :
  (forall p1 p2 p3 : vec3,
     Checked.computeNormal p1 p2 p3 = Some (computeNormal p1 p2 p3) /\
     (edgeCrossLength p1 p2 p3 = 0 ->
      Checked.divide3 (edgeCross p1 p2 p3) (edgeCrossLength p1 p2 p3) = None
      /\ Checked.computeNormal p1 p2 p3 = Some vzero)) /\
  (forall (vNormal uCamPos vWorldPosition uLightDir uSunLightDir
           baseColor : vec3) (metalness : R),
     Checked.directionsNonzero vNormal uCamPos vWorldPosition uLightDir
                               uSunLightDir ->
     0 <= Fragment.NdotV vNormal uCamPos vWorldPosition /\
     0 <= Fragment.NdotL vNormal uSunLightDir /\
     0.001
     <= Fragment.denominator vNormal uCamPos vWorldPosition uSunLightDir /\
     0.0001
     <= Fragment.denom vNormal uCamPos vWorldPosition uSunLightDir uRoughness
     /\
     0 < Fragment.D_divisor vNormal uCamPos vWorldPosition uSunLightDir
           uRoughness /\
     Checked.sunSpecular vNormal uCamPos vWorldPosition uLightDir
                         uSunLightDir baseColor uRoughness metalness
     = Some (Fragment.specularSun vNormal uCamPos vWorldPosition uSunLightDir
                                  baseColor uRoughness metalness)).
Proof.
  split.
  - intros p1 p2 p3. split; [apply computeNormal_checked |].
    apply computeNormal_guard_needed.
  - intros vNormal uCamPos vWorldPosition uLightDir uSunLightDir baseColor
           metalness Hdir.
    assert (Hr : uRoughness <> 0) by (unfold uRoughness; lra).
    assert (Hr1 : uRoughness <> -1) by (unfold uRoughness; lra).
    destruct (denominator_lower_bound vNormal uCamPos vWorldPosition
                uSunLightDir) as (Hv & Hl & Hden).
    split; [exact Hv |]. split; [exact Hl |]. split; [exact Hden |].
    split; [apply denom_margin |].
    split; [now apply D_divisor_positive |].
    now apply sunSpecular_some.
Qed.

Lemma divisions_checked_witness :
  Checked.directionsNonzero (Vec3 0 1 0) uSunLightDir vzero uLightDir
                            uSunLightDir /\
  Checked.sunSpecular (Vec3 0 1 0) uSunLightDir vzero uLightDir uSunLightDir
                      (Vec3 1 0 0) uRoughness uMetalness
  = Some (Fragment.specularSun (Vec3 0 1 0) uSunLightDir vzero uSunLightDir
                               (Vec3 1 0 0) uRoughness uMetalness).
Proof.
  split; [exact towardsSun_directionsNonzero |].
  exact (proj2 (proj2 (proj2 (proj2 (proj2
           (proj2 divisions_checked (Vec3 0 1 0) uSunLightDir vzero uLightDir
              uSunLightDir (Vec3 1 0 0) uMetalness
              towardsSun_directionsNonzero)))))).
Defined.

(** C9 (counterexample): with the light directions and the roughness the
    sketch uploads, a fragment at the origin seen by a camera placed against
    the sun has V = -S, so [normalize(V + S)] divides by the length 0: the
    sun specular term does divide by zero at this configuration. *)
Lemma division_by_zero_against_sun :
  Fragment.length3
    (Fragment.vadd (Fragment.V Checked.againstSun vzero)
                   (Fragment.S uSunLightDir)) = 0 /\
  Checked.sunSpecular (Vec3 0 1 0) Checked.againstSun vzero uLightDir
                      uSunLightDir (Vec3 1 0 0) uRoughness uMetalness
  = None.
Proof.
  assert (Hsum : Fragment.vadd
                   (Fragment.normalize (Fragment.vsub Checked.againstSun vzero))
                   (Fragment.normalize uSunLightDir) = vzero).
  { rewrite vsub_vzero. apply opposite_normalized_cancel; reflexivity. }
  split.
  - unfold Fragment.V, Fragment.S. rewrite Hsum. apply length3_vzero.
  - unfold Checked.sunSpecular.
    rewrite (normalize_some (Vec3 0 1 0))
      by (apply length3_nonzero; unfold Fragment.dot; cbn [vx vy vz]; lra).
    rewrite (normalize_some (Fragment.vsub Checked.againstSun vzero))
      by (rewrite vsub_vzero; exact againstSun_nonzero).
    rewrite (normalize_some uLightDir uLightDir_nonzero).
    rewrite (normalize_some uSunLightDir uSunLightDir_nonzero).
    cbn [Checked.bind]. cbv zeta.
    rewrite Hsum, (normalize_zero_length vzero length3_vzero).
    reflexivity.
Qed.

(** The zero normal that [computeNormal] returns for the degenerate side
    faces of a cube with heightFactor -1 is passed to the vertex shader,
    whose [normalize(aNormal)] then divides by the length 0. *)
Lemma degenerate_normal_in_vertex_shader (xo yo zo angle : R) :
  Checked.vertexNormal
    (nth 0 (faceNormals 6 (createCube xo yo zo (-1) angle)) (Vec3 0 1 0))
  = None.
Proof.
  rewrite createCube_faceNormals. cbv zeta.
  destruct cubeCorners_normals_flat as (H0 & _).
  cbv zeta in H0. rewrite H0. cbn [map nth].
  destruct (rotateY_axes angle) as (_ & _ & _ & _ & _ & _ & R7).
  rewrite R7. unfold Checked.vertexNormal.
  apply normalize_zero_length. exact length3_vzero.
Qed.
